(** * haleyrc/weather: a weather client and the daily aggregation of a forecast

    A shallow embedding of [weather.go] and of [cmd/cli/main.go].

    - The numeric fields are Go [float64] values: Rocq's primitive
      binary64 floats, with their specification in [SpecFloat].
    - The [time] package is an interface, [TimeAPI]; the properties of
      [Daily] that do not depend on the calendar are proved for every
      instance.  One instance is executable, [CivilTime]: instants are
      Unix seconds, locations are fixed offsets, the calendar is the
      proleptic Gregorian one, and the day layout is formatted and parsed
      as Go does it, years beyond four digits included.
    - The map of day buckets is a [gmap]; [sort.Strings] is a merge sort
      in byte order; a Go panic is an explicit outcome.
    - [Daily] is embedded twice: on values (lists of observations), and on
      slices in a store of backing arrays, where [append] writes in place
      or moves to a new array.
    - The HTTP round trip and the JSON decoder are parameters of the
      client functions.
    - [main] is the list of what a run shows: the values it dumps, and the
      error or the panic that ends it. *)

From Stdlib Require Import ZArith List Ascii String Floats Lia Permutation Sorted.
From Stdlib Require Uint63.
From stdpp Require Import base option list sorting gmap strings.

Local Open Scope string_scope.
Local Open Scope Z_scope.
Local Open Scope list_scope.

(** ** float64 *)

Module F64.

(** [float64(n)] for an [int] [n]: the nearest binary64, ties to even. *)
Definition of_int (n : Z) : float :=
  SF2Prim (binary_normalize prec emax n 0 false).

(** [math.Inf(1)], [math.Inf(-1)] and the literal [0.0]. *)
Definition Inf_pos : float := infinity.
Definition Inf_neg : float := neg_infinity.
Definition zero : float := 0%float.

(** The number one, as [Prim2SF] shows it. *)
Definition one_SF : spec_float := S754_finite false 4503599627370496 (-52).

(** Go's [a > b] on float64: false as soon as one side is NaN. *)
Definition gt (a b : float) : bool := (b <? a)%float.
Definition lt (a b : float) : bool := (a <? b)%float.
Definition le (a b : float) : bool := (a <=? b)%float.

(** Go's [a == b] on float64: [-0 == +0], and NaN differs from itself. *)
Definition eq (a b : float) : bool := (a =? b)%float.

Definition isNaN (a : float) : bool := negb (a =? a)%float.

(** The same float64 value for an observer that can tell a NaN by
    [x != x]: equal under [==], or both NaN. *)
Definition same (a b : float) : bool := eq a b || (isNaN a && isNaN b).

End F64.

(** ** Outcomes of Go code that may panic *)

Inductive outcome (A : Type) : Type :=
| Ok (a : A)
| Panic (msg : string).
Arguments Ok {A} a.
Arguments Panic {A} msg.

Global Instance outcome_ret : MRet outcome := fun A a => Ok a.
Global Instance outcome_bind : MBind outcome := fun A B k m =>
  match m with
  | Ok a => k a
  | Panic msg => Panic msg
  end.

Global Instance outcome_fmap : FMap outcome := fun A B f m =>
  match m with
  | Ok a => Ok (f a)
  | Panic msg => Panic msg
  end.

(** A [for ... range] loop that appends one element per iteration. *)
Fixpoint range_append {A B} (body : A -> outcome B) (l : list A) (acc : list B)
  : outcome (list B) :=
  match l with
  | [] => Ok acc
  | a :: l' => b ← body a; range_append body l' (acc ++ [b])
  end.

(** ** The part of Go's [time] package the program calls

    [Time_Clock] is not called by the program; the statements about
    midnight read it. *)

Class TimeAPI := {
  time_Time : Type;
  time_Location : Type;
  (** the zero [time.Time{}] *)
  time_zero : time_Time;
  (** [time.Unix(sec, nsec)] *)
  time_Unix : Z -> Z -> time_Time;
  (** [t.Location()], never nil *)
  Time_Location : time_Time -> time_Location;
  (** [t.Format(layout)] *)
  Time_Format : time_Time -> string -> string;
  (** [t.Clock()]: hour, minute and second within the day *)
  Time_Clock : time_Time -> Z * Z * Z;
  (** [time.ParseInLocation(layout, value, loc)] for a non-nil [loc]:
      the time and the error (nil is [None]) *)
  time_ParseInLocation : string -> string -> time_Location -> time_Time * option string;
}.

(** [sort.Strings]: ascending in Go's string order, which compares bytes. *)
Definition sort_Strings (keys : list string) : list string :=
  merge_sort String.le keys.

Record Weather {tm : TimeAPI} := {
  Date : time_Time;
  Temperature : float;
  TemperatureMin : float;
  TemperatureMax : float;
  Humidity : float;
}.

(** [type Forecast []Weather] *)
Abbreviation Forecast := (list Weather).

Section Program.
Context {tm : TimeAPI}.

(** [time.ParseInLocation] called through a [*time.Location] that may be
    nil: [time.Date] panics on a nil location. *)
Definition ParseInLocation_ptr (layout value : string) (loc : option time_Location)
  : outcome (time_Time * option string) :=
  match loc with
  | Some l => Ok (time_ParseInLocation layout value l)
  | None => Panic "time: missing Location in call to Date"
  end.

(** [Weather{}] *)
Definition Weather_zero : Weather :=
  {| Date := time_zero; Temperature := F64.zero; TemperatureMin := F64.zero;
     TemperatureMax := F64.zero; Humidity := F64.zero |}.

(** *** The reducers *)

(** The loop bodies of the two extremum reducers. *)
Definition max_step (max : float) (w : Weather) : float :=
  if F64.gt (TemperatureMax w) max then TemperatureMax w else max.

Definition min_step (min : float) (w : Weather) : float :=
  if F64.lt (TemperatureMin w) min then TemperatureMin w else min.

Definition MaximumTemperature (f : Forecast) : float :=
  fold_left max_step f F64.Inf_neg.

Definition MinimumTemperature (f : Forecast) : float :=
  fold_left min_step f F64.Inf_pos.

Definition AverageTemperature (f : Forecast) : float :=
  let temp := fold_left (fun temp w => (temp + Temperature w)%float) f F64.zero in
  (temp / F64.of_int (Z.of_nat (length f)))%float.

Definition AverageHumidity (f : Forecast) : float :=
  let hum := fold_left (fun hum w => (hum + Humidity w)%float) f F64.zero in
  (hum / F64.of_int (Z.of_nat (length f)))%float.

(** *** Daily *)

Definition day_layout : string := "20060102".

(** The locals of [Daily] that the first loop updates. *)
Record grouping := {
  days : gmap string Forecast;
  keys : list string;
  loc : option time_Location;
}.

Definition grouping_init : grouping :=
  {| days := ∅; keys := []; loc := None |}.

(** One iteration of [for _, w := range f].  Indexing a map at a missing
    key gives the nil slice. *)
Definition group_step (g : grouping) (w : Weather) : grouping :=
  let loc' := match loc g with
              | None => Some (Time_Location (Date w))
              | Some l => Some l
              end in
  let key := Time_Format (Date w) day_layout in
  let keys' := match days g !! key with
               | None => keys g ++ [key]
               | Some _ => keys g
               end in
  {| days := <[key := default [] (days g !! key) ++ [w]]> (days g);
     keys := keys';
     loc := loc' |}.

Definition group (f : Forecast) : grouping := fold_left group_step f grouping_init.

(** The body of [for _, key := range keys]; the parse error is dropped. *)
Definition summarize (g : grouping) (key : string) : outcome Weather :=
  let hourly := default [] (days g !! key) in
  r ← ParseInLocation_ptr day_layout key (loc g);
  Ok {| Date := fst r;
        Humidity := AverageHumidity hourly;
        Temperature := AverageTemperature hourly;
        TemperatureMin := MinimumTemperature hourly;
        TemperatureMax := MaximumTemperature hourly |}.

Definition Daily (f : Forecast) : outcome Forecast :=
  let g := group f in
  let keys := sort_Strings (keys g) in
  range_append (summarize g) keys [].

End Program.

(** ** An executable instance of the [time] interface

    Instants are Unix seconds; a location is a fixed offset east of UTC
    ([time.UTC], [time.FixedZone]); the calendar is the proleptic Gregorian
    one.  Layouts are read as sequences of the verbs [2006], [01], [02] and
    literal characters, which covers the program's only layout.

    A location with transitions ([time.Local], [time.LoadLocation]) is not
    of this kind: there [time.Date], and with it [time.ParseInLocation],
    may return another hour than midnight on a day whose midnight a clock
    change skips.  This instance serves the examples; what is stated of
    every zone is stated over [TimeAPI]. *)

Module CivilTime.

Record Location := { zone_name : string; zone_offset : Z }.

Definition UTC : Location := {| zone_name := "UTC"; zone_offset := 0 |}.

(** [time.FixedZone(name, offset)] *)
Definition FixedZone (name : string) (offset : Z) : Location :=
  {| zone_name := name; zone_offset := offset |}.

Record Time := { unix : Z; location : Location }.

(** Days since 1970-01-01 to (year, month, day) and back. *)
Definition civil_from_days (z0 : Z) : Z * Z * Z :=
  let z := z0 + 719468 in
  let era := z / 146097 in
  let doe := z - era * 146097 in
  let yoe := (doe - doe / 1460 + doe / 36524 - doe / 146096) / 365 in
  let doy := doe - (365 * yoe + yoe / 4 - yoe / 100) in
  let mp := (5 * doy + 2) / 153 in
  let d := doy - (153 * mp + 2) / 5 + 1 in
  let m := if mp <? 10 then mp + 3 else mp - 9 in
  let y := yoe + era * 400 in
  (if m <=? 2 then y + 1 else y, m, d).

Definition days_from_civil (y0 m d : Z) : Z :=
  let y := if m <=? 2 then y0 - 1 else y0 in
  let era := y / 400 in
  let yoe := y - era * 400 in
  let doy := (153 * (if 2 <? m then m - 3 else m + 9) + 2) / 5 + d - 1 in
  let doe := yoe * 365 + yoe / 4 - yoe / 100 + doy in
  era * 146097 + doe - 719468.

Definition isLeap (y : Z) : bool :=
  (y mod 4 =? 0) && (negb (y mod 100 =? 0) || (y mod 400 =? 0)).

Definition daysIn (m y : Z) : Z :=
  if m =? 2 then (if isLeap y then 29 else 28)
  else if (m =? 4) || (m =? 6) || (m =? 9) || (m =? 11) then 30
  else 31.

(** [time.Date(year, month, day, hour, min, sec, 0, loc)] for fields in range. *)
Definition Date (y m d hh mm ss : Z) (l : Location) : Time :=
  {| unix := days_from_civil y m d * 86400 + hh * 3600 + mm * 60 + ss - zone_offset l;
     location := l |}.

(** [time.Time{}] is January 1, year 1, 00:00:00 UTC. *)
Definition zero : Time := {| unix := -62135596800; location := UTC |}.

(** [time.Unix(sec, nsec)]: the local zone of this instance is UTC, and
    only whole seconds are kept (the program passes [nsec = 0]). *)
Definition Unix (sec nsec : Z) : Time := {| unix := sec; location := UTC |}.

(** [t.Date()] and [t.Clock()], in the location of [t]. *)
Definition civil (t : Time) : Z * Z * Z :=
  civil_from_days ((unix t + zone_offset (location t)) / 86400).

Definition Clock (t : Time) : Z * Z * Z :=
  let s := (unix t + zone_offset (location t)) mod 86400 in
  (s / 3600, (s mod 3600) / 60, s mod 60).

(** Decimal digits. *)
Definition digit (n : Z) : ascii := ascii_of_nat (48 + Z.to_nat n).

Fixpoint utoa_fuel (fuel : nat) (n : Z) (acc : string) : string :=
  match fuel with
  | O => acc
  | S fuel' =>
      let acc' := String (digit (n mod 10)) acc in
      if n <? 10 then acc' else utoa_fuel fuel' (n / 10) acc'
  end.

Definition utoa (n : Z) : string := utoa_fuel (S (Z.to_nat (Z.log2 n))) n EmptyString.

Fixpoint zeros (n : nat) : string :=
  match n with
  | O => EmptyString
  | S n' => String "0" (zeros n')
  end.

(** [appendInt(b, x, width)]: a sign for a negative [x], then the digits
    of its magnitude, zero-padded to [width]. *)
Definition appendInt (x : Z) (width : nat) : string :=
  let ds := utoa (Z.abs x) in
  let sign := if x <? 0 then "-" else EmptyString in
  let pad := zeros (width - String.length ds)%nat in
  sign +:+ pad +:+ ds.

Fixpoint format_chunks (layout : string) (y m d : Z) : string :=
  match layout with
  | String "2" (String "0" (String "0" (String "6" rest))) =>
      appendInt y 4 +:+ format_chunks rest y m d
  | String "0" (String "1" rest) => appendInt m 2 +:+ format_chunks rest y m d
  | String "0" (String "2" rest) => appendInt d 2 +:+ format_chunks rest y m d
  | String c rest => String c (format_chunks rest y m d)
  | EmptyString => EmptyString
  end.

Definition Format (t : Time) (layout : string) : string :=
  let '(y, m, d) := civil t in format_chunks layout y m d.

Definition isDigit (c : ascii) : bool :=
  let n := nat_of_ascii c in (48 <=? n)%nat && (n <=? 57)%nat.

Definition digit_val (c : ascii) : Z := Z.of_nat (nat_of_ascii c) - 48.

(** Exactly [n] leading digits of [value], as a number, and the rest. *)
Fixpoint getnum (n : nat) (value : string) (acc : Z) : option (Z * string) :=
  match n with
  | O => Some (acc, value)
  | S n' =>
      match value with
      | String c rest =>
          if isDigit c then getnum n' rest (10 * acc + digit_val c) else None
      | EmptyString => None
      end
  end.

Record fields := { f_year : Z; f_month : Z; f_day : Z }.

Fixpoint parse_chunks (layout value : string) (acc : fields) : fields + string :=
  match layout with
  | String "2" (String "0" (String "0" (String "6" rest))) =>
      match getnum 4 value 0 with
      | Some (y, value') =>
          parse_chunks rest value' {| f_year := y; f_month := f_month acc; f_day := f_day acc |}
      | None => inr "cannot parse year"
      end
  | String "0" (String "1" rest) =>
      match getnum 2 value 0 with
      | Some (m, value') =>
          if (m <=? 0) || (12 <? m) then inr "month out of range"
          else parse_chunks rest value' {| f_year := f_year acc; f_month := m; f_day := f_day acc |}
      | None => inr "cannot parse month"
      end
  | String "0" (String "2" rest) =>
      match getnum 2 value 0 with
      | Some (d, value') =>
          parse_chunks rest value' {| f_year := f_year acc; f_month := f_month acc; f_day := d |}
      | None => inr "cannot parse day"
      end
  | String c rest =>
      match value with
      | String c' value' =>
          if Ascii.eqb c c' then parse_chunks rest value' acc else inr "cannot parse literal"
      | EmptyString => inr "cannot parse literal"
      end
  | EmptyString =>
      match value with
      | EmptyString => inl acc
      | _ => inr "extra text"
      end
  end.

(** [time.ParseInLocation]: on an error the zero time is returned with it;
    fields the layout does not mention are January 1 of year 0, 00:00:00. *)
Definition ParseInLocation (layout value : string) (l : Location) : Time * option string :=
  match parse_chunks layout value {| f_year := 0; f_month := 1; f_day := 1 |} with
  | inr err => (zero, Some err)
  | inl f =>
      if (f_day f <? 1) || (daysIn (f_month f) (f_year f) <? f_day f)
      then (zero, Some "day out of range")
      else (Date (f_year f) (f_month f) (f_day f) 0 0 0 l, None)
  end.

(** The year of [t] in its location, [t.Year()]. *)
Definition Year (t : Time) : Z := fst (fst (civil t)).

(** Checks that the proofs run over a finite range: every day of one
    400-year era converts to a date of the calendar and back, and the
    numbers of four and of two digits print to their digits. *)
Fixpoint all_from (n : nat) (z : Z) (p : Z -> bool) : bool :=
  match n with
  | O => true
  | S n' => p z && all_from n' (z + 1) p
  end.

(** A date as one number, year first; the next day has the greater one. *)
Definition date_code (ymd : Z * Z * Z) : Z :=
  let '(y, m, d) := ymd in y * 10000 + m * 100 + d.

(** One day of an era: it converts to a date of the calendar and back,
    and the day after it has a greater date. *)
Definition era_day_ok (doe : Z) : bool :=
  let '(y, m, d) := civil_from_days (doe - 719468) in
  (1 <=? m) && (m <=? 12) && (1 <=? d) && (d <=? daysIn m y) &&
  (days_from_civil y m d =? doe - 719468) &&
  (date_code (y, m, d) <? date_code (civil_from_days (doe + 1 - 719468))).

(** A string of decimal digits and the number it writes. *)
Fixpoint all_digits (s : string) : bool :=
  match s with
  | EmptyString => true
  | String a r => isDigit a && all_digits r
  end.

Fixpoint dec_value (s : string) : Z :=
  match s with
  | EmptyString => 0
  | String a r => digit_val a * 10 ^ Z.of_nat (String.length r) + dec_value r
  end.

(** The day number of [t] in its location. *)
Definition day_number (t : Time) : Z := (unix t + zone_offset (location t)) / 86400.

Definition four_digits_ok (n : Z) : bool :=
  match appendInt n 4 with
  | String a (String b (String c (String d EmptyString))) =>
      isDigit a && isDigit b && isDigit c && isDigit d &&
      (10 * (10 * (10 * (10 * 0 + digit_val a) + digit_val b) + digit_val c) + digit_val d =? n)
  | _ => false
  end.

Definition two_digits_ok (n : Z) : bool :=
  match appendInt n 2 with
  | String a (String b EmptyString) =>
      isDigit a && isDigit b && (10 * (10 * 0 + digit_val a) + digit_val b =? n)
  | _ => false
  end.

Global Instance api : TimeAPI := {|
  time_Time := Time;
  time_Location := Location;
  time_zero := zero;
  time_Unix := Unix;
  Time_Location := location;
  Time_Format := Format;
  Time_Clock := Clock;
  time_ParseInLocation := ParseInLocation;
|}.

End CivilTime.

(** ** The client: [makeRequest], [GetForecast], [GetCurrentWeather]

    The HTTP round trip and the JSON decoder are the environment: any
    function may stand for them. *)

Definition OpenWeatherMapURL : string := "https://api.openweathermap.org/data/2.5/".

(** [type Units string] *)
Definition Units := string.
Definition Kelvin : Units := "kelvin".
Definition Imperial : Units := "imperial".
Definition Metric : Units := "metric".

Record Client := {
  apiKey : string;
  units : Units;
  (** the timeout of the [http.Client], in seconds *)
  httpTimeout : Z;
}.

Definition Option := Client -> Client.

Definition WithAPIKey (k : string) : Option :=
  fun c => {| apiKey := k; units := units c; httpTimeout := httpTimeout c |}.

Definition WithUnits (u : Units) : Option :=
  fun c => {| apiKey := apiKey c; units := u; httpTimeout := httpTimeout c |}.

Definition NewClient (opts : list Option) : Client :=
  fold_left (fun c opt => opt c) opts
            {| apiKey := EmptyString; units := Kelvin; httpTimeout := 5 |}.

(** [url.Values] and its [Set]. *)
Definition url_Values := gmap string (list string).
Definition Values_Set (v : url_Values) (key value : string) : url_Values :=
  <[key := [value]]> v.

Record Request := { req_method : string; req_url : string; req_query : url_Values }.
Record Response := { StatusCode : Z; Body : string }.

(** The [main] object of a response, and the two response shapes. *)
Record MainJSON := {
  main_temp : float;
  main_temp_min : float;
  main_temp_max : float;
  main_humidity : float;
}.
Record WeatherJSON := { dt : Z; main : MainJSON }.
Record ForecastJSON := { list_ : list WeatherJSON }.

Definition MainJSON_zero : MainJSON :=
  {| main_temp := F64.zero; main_temp_min := F64.zero;
     main_temp_max := F64.zero; main_humidity := F64.zero |}.
Definition WeatherJSON_zero : WeatherJSON := {| dt := 0; main := MainJSON_zero |}.
Definition ForecastJSON_zero : ForecastJSON := {| list_ := [] |}.

(** What the program does not contain: the network and [encoding/json]. *)
Class Environment := {
  (** [http.NewRequest(method, url, nil)] *)
  http_NewRequest : string -> string -> Request + string;
  (** [c.httpClient.Do(req)] *)
  httpClient_Do : Client -> Request -> Response + string;
  (** [ioutil.ReadAll(resp.Body)] *)
  ioutil_ReadAll : Response -> string + string;
  (** [json.NewDecoder(resp.Body).Decode(dest)] at the two types the
      program decodes into: the updated [dest] and the error *)
  decode_weather : Response -> WeatherJSON -> WeatherJSON * option string;
  decode_forecast : Response -> ForecastJSON -> ForecastJSON * option string;
}.

(** The destinations [makeRequest] is called with. *)
Class JSONTarget (D : Type) := json_Decode : Environment -> Response -> D -> D * option string.
Global Instance WeatherJSON_target : JSONTarget WeatherJSON := fun env => decode_weather.
Global Instance ForecastJSON_target : JSONTarget ForecastJSON := fun env => decode_forecast.

Section ClientProgram.
Context {tm : TimeAPI} {env : Environment}.

(** The [ctx] argument is not used by the body and is left out. *)
Definition makeRequest {D : Type} `{JSONTarget D} (c : Client) (dest : D)
    (endpoint : string) (queryParams : url_Values) : D * option string :=
  match http_NewRequest "GET" (OpenWeatherMapURL +:+ endpoint) with
  | inr err => (dest, Some err)
  | inl req =>
      let queryParams := Values_Set queryParams "APPID" (apiKey c) in
      let queryParams :=
        if decide (units c = Kelvin) then queryParams
        else Values_Set queryParams "units" (units c) in
      let req := {| req_method := req_method req; req_url := req_url req;
                    req_query := queryParams |} in
      match httpClient_Do c req with
      | inr err => (dest, Some err)
      | inl resp =>
          if decide (StatusCode resp = 200) then json_Decode env resp dest
          else match ioutil_ReadAll resp with
               | inr err => (dest, Some err)
               | inl b => (dest, Some b)
               end
      end
  end.

Definition GetForecast (c : Client) (zip : string) : Forecast * option string :=
  let params := Values_Set ∅ "zip" zip in
  match makeRequest c ForecastJSON_zero "forecast" params with
  | (_, Some err) => ([], Some err)
  | (resp, None) =>
      (fold_left (fun weathers w =>
                    weathers ++ [{| Date := time_Unix (dt w) 0;
                                    Humidity := main_humidity (main w);
                                    Temperature := main_temp (main w);
                                    TemperatureMin := main_temp_min (main w);
                                    TemperatureMax := main_temp_max (main w) |}])
                 (list_ resp) [],
       None)
  end.

Definition GetCurrentWeather (c : Client) (zip : string) : Weather * option string :=
  let params := Values_Set ∅ "zip" zip in
  match makeRequest c WeatherJSON_zero "weather" params with
  | (_, Some err) => (Weather_zero, Some err)
  | (resp, None) =>
      ({| Date := time_Unix (dt resp) 0;
          Temperature := main_temp (main resp);
          TemperatureMax := main_temp_max (main resp);
          TemperatureMin := main_temp_min (main resp);
          (* the literal names no Humidity: the field keeps its zero value *)
          Humidity := F64.zero |},
       None)
  end.

End ClientProgram.

(** ** Notions the statements use *)

Section Notions.
Context {tm : TimeAPI}.

(** The day key of an observation: its date under the day layout, in the
    observation's own location. *)
Definition day_key (w : Weather) : string := Time_Format (Date w) day_layout.

(** The observations of a forecast with a given day key, in input order. *)
Definition bucket (f : Forecast) (k : string) : Forecast :=
  filter (fun w => day_key w = k) f.

(** The distinct day keys of a forecast, ascending. *)
Definition day_keys (f : Forecast) : list string :=
  sort_Strings (remove_dups (day_key <$> f)).

(** Strictly ascending byte order on strings. *)
Definition String_lt (a b : string) : Prop := String.le a b ∧ a ≠ b.

(** The summary of the bucket of key [k], dated in location [l]. *)
Definition day_summary (l : time_Location) (f : Forecast) (k : string) : Weather :=
  {| Date := fst (time_ParseInLocation day_layout k l);
     Humidity := AverageHumidity (bucket f k);
     Temperature := AverageTemperature (bucket f k);
     TemperatureMin := MinimumTemperature (bucket f k);
     TemperatureMax := MaximumTemperature (bucket f k) |}.

(** [r] is the greatest (least) of the float64 values [xs]. *)
Definition float_max_of (r : float) (xs : list float) : Prop :=
  r ∈ xs ∧ ∀ x, x ∈ xs → F64.le x r = true.
Definition float_min_of (r : float) (xs : list float) : Prop :=
  r ∈ xs ∧ ∀ x, x ∈ xs → F64.le r x = true.

(** The arithmetic mean in float64 arithmetic: the sum, accumulated from
    [0.0] in sequence order, divided by the count. *)
Definition float_mean (xs : list float) : float :=
  (fold_left PrimFloat.add xs F64.zero / F64.of_int (Z.of_nat (length xs)))%float.

Definition no_NaN (xs : list float) : Prop := ∀ x, x ∈ xs → F64.isNaN x = false.

(** The four aggregates of a summary [s] over the bucket [b]. *)
Definition aggregates (s : Weather) (b : Forecast) : Prop :=
  float_max_of (TemperatureMax s) (TemperatureMax <$> b) ∧
  float_min_of (TemperatureMin s) (TemperatureMin <$> b) ∧
  Temperature s = float_mean (Temperature <$> b) ∧
  Humidity s = float_mean (Humidity <$> b).

(** The same, with the extrema promised exactly for buckets whose values
    are all comparable. *)
Definition aggregates_of_numbers (s : Weather) (b : Forecast) : Prop :=
  (float_max_of (TemperatureMax s) (TemperatureMax <$> b) ↔ no_NaN (TemperatureMax <$> b)) ∧
  (float_min_of (TemperatureMin s) (TemperatureMin <$> b) ↔ no_NaN (TemperatureMin <$> b)) ∧
  Temperature s = float_mean (Temperature <$> b) ∧
  Humidity s = float_mean (Humidity <$> b).

(** Every summary of [Daily f] aggregates its own bucket. *)
Definition Daily_aggregates (f : Forecast) : Prop :=
  ∃ ds, Daily f = Ok ds ∧
        Forall2 (fun k s => aggregates s (bucket f k)) (day_keys f) ds.

(** [t] is 00:00:00 of the day of key [k], shown in location [l]. *)
Definition midnight_of (t : time_Time) (k : string) (l : time_Location) : Prop :=
  Time_Location t = l ∧ Time_Format t day_layout = k ∧ Time_Clock t = (0, 0, 0).

(** Every summary of [Daily f] is dated at midnight of its day in the
    location of the first observation of [f]. *)
Definition Daily_dated_in_first_zone (f : Forecast) : Prop :=
  ∀ w0 f', f = w0 :: f' →
    ∃ ds, Daily f = Ok ds ∧
          Forall2 (fun k s => midnight_of (Date s) k (Time_Location (Date w0)))
                  (day_keys f) ds.

(** Two weather values that no comparison of their fields tells apart. *)
Definition Weather_same (a b : Weather) : Prop :=
  Date a = Date b ∧
  F64.same (Temperature a) (Temperature b) = true ∧
  F64.same (TemperatureMin a) (TemperatureMin b) = true ∧
  F64.same (TemperatureMax a) (TemperatureMax b) = true ∧
  F64.same (Humidity a) (Humidity b) = true.

(** Applying [Daily] to its own result gives that result again. *)
Definition Daily_idempotent (f : Forecast) : Prop :=
  ∃ d, Daily f = Ok d ∧ ∃ d', Daily d = Ok d' ∧ Forall2 Weather_same d' d.

(** Each day key of [f], parsed in the location of the first observation,
    formats back to itself and stays in that location. *)
Definition keys_round_trip (f : Forecast) : Prop :=
  ∀ w0 f', f = w0 :: f' →
    Forall (fun k =>
              let t := fst (time_ParseInLocation day_layout k (Time_Location (Date w0))) in
              Time_Format t day_layout = k ∧
              Time_Location t = Time_Location (Date w0))
           (day_keys f).

End Notions.

(** Notions on the executable [time] instance. *)

(** The summaries of [Daily f] are dated at strictly ascending instants. *)
Definition Daily_chronological (f : list (@Weather CivilTime.api)) : Prop :=
  ∃ ds, Daily f = Ok ds ∧
        StronglySorted (fun a b => CivilTime.unix (Date a) < CivilTime.unix (Date b)) ds.

(** The observations of [f] fall in the years that the day layout can
    write with four digits. *)
Definition years_0000_9999 (f : list (@Weather CivilTime.api)) : Prop :=
  ∀ w, w ∈ f → 0 <= CivilTime.Year (Date w) <= 9999.



(** ** Daily on slices in memory

    A slice is a view (offset, length, capacity) of a backing array that
    lives in a store; [range] reads the elements from the store at each
    iteration, [append] writes in place while the capacity lasts and moves
    to a new array when it does not.  The slice of keys is kept as a list:
    it never meets the input. *)

Section Memory.
Context {tm : TimeAPI}.

(** The policy by which [append] picks the capacity of a new array. *)
Context (growcap : nat -> nat).

Record slice := {
  s_arr : option positive;
  s_off : nat;
  s_len : nat;
  s_cap : nat;
}.

(** The nil slice. *)
Definition slice_nil : slice := {| s_arr := None; s_off := 0; s_len := 0; s_cap := 0 |}.

(** Code that reads and writes the store of arrays, and may panic. *)
Definition mem (A : Type) : Type :=
  gmap positive (list Weather) -> outcome (A * gmap positive (list Weather)).

Definition mem_ret {A} (a : A) : mem A := fun h => Ok (a, h).

Definition mem_bind {A B} (m : mem A) (k : A -> mem B) : mem B :=
  fun h => match m h with
           | Ok (a, h') => k a h'
           | Panic msg => Panic msg
           end.

Definition mem_lift {A} (o : outcome A) : mem A :=
  fun h => match o with
           | Ok a => Ok (a, h)
           | Panic msg => Panic msg
           end.

(** The elements a slice shows, as the store has them. *)
Definition slice_contents (h : gmap positive (list Weather)) (s : slice) : list Weather :=
  match s_arr s with
  | None => []
  | Some a => take (s_len s) (drop (s_off s) (default [] (h !! a)))
  end.

(** [s[i]] *)
Definition slice_get (s : slice) (i : nat) : mem Weather :=
  fun h =>
    if (i <? s_len s)%nat then
      match s_arr s with
      | Some a =>
          match default [] (h !! a) !! (s_off s + i)%nat with
          | Some w => Ok (w, h)
          | None => Panic "index out of range"
          end
      | None => Panic "index out of range"
      end
    else Panic "index out of range".

(** [make([]Weather, 0, n)]: a new array of [n] zero values. *)
Definition slice_make (n : nat) : mem slice :=
  fun h =>
    let a := fresh (dom h) in
    Ok ({| s_arr := Some a; s_off := 0; s_len := 0; s_cap := n |},
        <[a := replicate n Weather_zero]> h).

(** [append(s, w)] *)
Definition slice_append (s : slice) (w : Weather) : mem slice :=
  fun h =>
    match s_arr s with
    | Some a =>
        if (s_len s <? s_cap s)%nat then
          Ok ({| s_arr := Some a; s_off := s_off s; s_len := S (s_len s); s_cap := s_cap s |},
              <[a := <[(s_off s + s_len s)%nat := w]> (default [] (h !! a))]> h)
        else
          let a' := fresh (dom h) in
          let n := Nat.max (S (s_len s)) (growcap (s_cap s)) in
          Ok ({| s_arr := Some a'; s_off := 0; s_len := S (s_len s); s_cap := n |},
              <[a' := slice_contents h s ++ w :: replicate (n - S (s_len s)) Weather_zero]> h)
    | None =>
        let a' := fresh (dom h) in
        let n := Nat.max 1 (growcap 0) in
        Ok ({| s_arr := Some a'; s_off := 0; s_len := 1; s_cap := n |},
            <[a' := w :: replicate (n - 1) Weather_zero]> h)
    end.

(** [for _, w := range s]: the length is read once, each element when its
    turn comes. *)
Fixpoint range_from {A} (s : slice) (body : A -> Weather -> mem A) (i n : nat) (acc : A)
  : mem A :=
  match n with
  | O => mem_ret acc
  | S n' =>
      mem_bind (slice_get s i) (fun w =>
      mem_bind (body acc w) (fun acc' =>
      range_from s body (S i) n' acc'))
  end.

Definition range_slice {A} (s : slice) (body : A -> Weather -> mem A) (acc : A) : mem A :=
  range_from s body 0 (s_len s) acc.

Definition MaximumTemperature_mem (f : slice) : mem float :=
  range_slice f (fun max w => mem_ret (max_step max w)) F64.Inf_neg.

Definition MinimumTemperature_mem (f : slice) : mem float :=
  range_slice f (fun min w => mem_ret (min_step min w)) F64.Inf_pos.

Definition AverageTemperature_mem (f : slice) : mem float :=
  mem_bind (range_slice f (fun temp w => mem_ret (temp + Temperature w)%float) F64.zero)
           (fun temp => mem_ret (temp / F64.of_int (Z.of_nat (s_len f)))%float).

Definition AverageHumidity_mem (f : slice) : mem float :=
  mem_bind (range_slice f (fun hum w => mem_ret (hum + Humidity w)%float) F64.zero)
           (fun hum => mem_ret (hum / F64.of_int (Z.of_nat (s_len f)))%float).

(** The locals of [Daily], with the buckets as slices. *)
Record grouping_mem := {
  m_days : gmap string slice;
  m_keys : list string;
  m_loc : option time_Location;
}.

Definition grouping_mem_init : grouping_mem :=
  {| m_days := ∅; m_keys := []; m_loc := None |}.

Definition group_step_mem (g : grouping_mem) (w : Weather) : mem grouping_mem :=
  let loc' := match m_loc g with
              | None => Some (Time_Location (Date w))
              | Some l => Some l
              end in
  let key := Time_Format (Date w) day_layout in
  let keys' := match m_days g !! key with
               | None => m_keys g ++ [key]
               | Some _ => m_keys g
               end in
  mem_bind (slice_append (default slice_nil (m_days g !! key)) w) (fun s =>
  mem_ret {| m_days := <[key := s]> (m_days g); m_keys := keys'; m_loc := loc' |}).

(** The body of the second loop: the fields of the literal in source
    order, then the append to [dailyForecast]. *)
Definition summarize_mem (g : grouping_mem) (dailyForecast : slice) (key : string) : mem slice :=
  let hourly := default slice_nil (m_days g !! key) in
  mem_bind (mem_lift (ParseInLocation_ptr day_layout key (m_loc g))) (fun r =>
  mem_bind (AverageHumidity_mem hourly) (fun hum =>
  mem_bind (AverageTemperature_mem hourly) (fun temp =>
  mem_bind (MinimumTemperature_mem hourly) (fun tmin =>
  mem_bind (MaximumTemperature_mem hourly) (fun tmax =>
  slice_append dailyForecast
    {| Date := fst r; Humidity := hum; Temperature := temp;
       TemperatureMin := tmin; TemperatureMax := tmax |}))))).

Fixpoint range_keys (g : grouping_mem) (ks : list string) (dailyForecast : slice) : mem slice :=
  match ks with
  | [] => mem_ret dailyForecast
  | key :: ks' =>
      mem_bind (summarize_mem g dailyForecast key) (fun out => range_keys g ks' out)
  end.

Definition Daily_mem (f : slice) : mem slice :=
  mem_bind (range_slice f group_step_mem grouping_mem_init) (fun g =>
  let keys := sort_Strings (m_keys g) in
  mem_bind (slice_make (size (m_days g))) (fun dailyForecast =>
  range_keys g keys dailyForecast)).

(** A slice is well formed in a store when its array is there and holds
    its capacity. *)
Definition slice_valid (h : gmap positive (list Weather)) (s : slice) : Prop :=
  match s_arr s with
  | None => s_len s = O ∧ s_cap s = O
  | Some a => ∃ arr, h !! a = Some arr ∧ (s_off s + s_cap s ≤ length arr)%nat ∧
                     (s_len s ≤ s_cap s)%nat
  end.

(** The first loop, after the observations [p], against the input store
    [h0]: the store still has every array of [h0] as it was; the buckets
    are slices on arrays of the loop's own, one array per key, holding the
    buckets of [group p]; keys and location are those of [group p]. *)
Definition group_rel (h0 : gmap positive (list Weather)) (p : Forecast)
    (g : grouping_mem) (h : gmap positive (list Weather)) : Prop :=
  (∀ a, a ∈ dom h0 → h !! a = h0 !! a) ∧
  m_keys g = keys (group p) ∧
  m_loc g = loc (group p) ∧
  (∀ k, match m_days g !! k with
        | Some s => (∃ a, s_arr s = Some a ∧ a ∉ dom h0) ∧ slice_valid h s ∧
                    days (group p) !! k = Some (slice_contents h s)
        | None => days (group p) !! k = None
        end) ∧
  (∀ k1 k2 s1 s2, k1 ≠ k2 → m_days g !! k1 = Some s1 → m_days g !! k2 = Some s2 →
                  s_arr s1 ≠ s_arr s2).

End Memory.
(** ** Sample forecasts, on the executable [time] instance *)

Module Examples.

Definition observation (t : CivilTime.Time) (temp tmin tmax hum : float)
  : @Weather CivilTime.api :=
  {| Date := t; Temperature := temp; TemperatureMin := tmin;
     TemperatureMax := tmax; Humidity := hum |}.

Definition at_utc (sec : Z) : CivilTime.Time :=
  {| CivilTime.unix := sec; CivilTime.location := CivilTime.UTC |}.

(** Observations dated 2024-01-03, 2024-01-01 and 2024-01-02, in that order. *)
Definition three_days : list (@Weather CivilTime.api) :=
  [ observation (at_utc 1704283200) 60 50 70 40;
    observation (at_utc 1704110400) 61 51 71 41;
    observation (at_utc 1704196800) 62 52 72 42 ].

(** One day, 2024-01-01, observed three times. *)
Definition one_day : list (@Weather CivilTime.api) :=
  [ observation (at_utc 1704067200) 60 50 70 40;
    observation (at_utc 1704078000) 70 48 75 60;
    observation (at_utc 1704088800) 65 55 68 50 ].

(** A single observation whose extrema are NaN. *)
Definition nan_day : list (@Weather CivilTime.api) :=
  [ observation (at_utc 1704067200) 60 nan nan 40 ].

(** January 1 and January 2 of the year 10000. *)
Definition year_10000 : list (@Weather CivilTime.api) :=
  [ observation (at_utc 253402300800) 60 50 70 40;
    observation (at_utc 253402387200) 61 51 71 41 ].

(** January 1 of the year 999, then January 1 of the year 10000. *)
Definition years_999_10000 : list (@Weather CivilTime.api) :=
  [ observation (at_utc (-30641760000)) 60 50 70 40;
    observation (at_utc 253402300800) 61 51 71 41 ].

(** Two zones: 2024-01-01 23:30 at UTC-05:00, then 2024-01-03 02:00 UTC. *)
Definition EST : CivilTime.Location := CivilTime.FixedZone "EST" (-18000).

Definition two_zones : list (@Weather CivilTime.api) :=
  [ observation {| CivilTime.unix := 1704169800; CivilTime.location := EST |} 60 50 70 40;
    observation (at_utc 1704247200) 61 51 71 41 ].

(** An environment whose server answers 200 and whose decoder fills in a
    reading with humidity 55. *)
Definition decoded : WeatherJSON :=
  {| dt := 1704067200;
     main := {| main_temp := 280; main_temp_min := 279; main_temp_max := 281;
                main_humidity := 55 |} |}.

Definition humid_server : Environment :=
  {| http_NewRequest := fun method url =>
       inl {| req_method := method; req_url := url; req_query := ∅ |};
     httpClient_Do := fun _ _ => inl {| StatusCode := 200; Body := EmptyString |};
     ioutil_ReadAll := fun resp => inl (Body resp);
     decode_weather := fun _ _ => (decoded, None);
     decode_forecast := fun _ dest => (dest, None) |}.

Definition client : Client := NewClient [WithAPIKey "key"; WithUnits Imperial].

(** A store with one array of six observations, and the slice of its
    elements 1 to 4, with room for one more. *)
Definition store : gmap positive (list (@Weather CivilTime.api)) :=
  {[ 5%positive := three_days ++ one_day ]}.

Definition window : slice :=
  {| s_arr := Some 5%positive; s_off := 1; s_len := 4; s_cap := 5 |}.

(** Doubling, as a growth policy for [append]. *)
Definition doubling (cap : nat) : nat := (2 * cap)%nat.

End Examples.

(** ** More notions the statements use *)

(** A float64 value that is neither NaN nor an infinity:
    [!math.IsNaN(x) && !math.IsInf(x, 0)]. *)
Definition isFinite (x : float) : bool :=
  negb (F64.isNaN x) && negb (F64.eq x F64.Inf_pos) && negb (F64.eq x F64.Inf_neg).

(** ** The command [cmd/cli]

    What a run of [main] shows of itself: the values it dumps, and the
    error or the panic it dies of. *)

Module Cli.

Inductive Event {tm : TimeAPI} : Type :=
| Dump_Weather (w : Weather)
| Dump_Forecast (f : Forecast)
| Fatalln (err : string)
| Panics (msg : string).

Section Command.
Context {tm : TimeAPI} {env : Environment}.

(** [os.Getenv] and [os.Args] are the arguments.  [log.Fatalln] ends the
    run; [os.Args[1]] is evaluated before the call it is an argument of. *)
Definition main (os_Getenv : string -> string) (os_Args : list string) : list Event :=
  let key := os_Getenv "OPENWEATHERMAP_APIKEY" in
  let c := NewClient [WithAPIKey key; WithUnits Imperial] in
  match os_Args !! 1%nat with
  | None => [Panics "index out of range"]
  | Some zip =>
      match GetCurrentWeather c zip with
      | (_, Some err) => [Fatalln err]
      | (w, None) =>
          Dump_Weather w ::
          match os_Args !! 1%nat with
          | None => [Panics "index out of range"]
          | Some zip =>
              match GetForecast c zip with
              | (_, Some err) => [Fatalln err]
              | (ws, None) =>
                  Dump_Forecast ws ::
                  match Daily ws with
                  | Panic msg => [Panics msg]
                  | Ok daily => [Dump_Forecast daily]
                  end
              end
          end
      end
  end.

End Command.

End Cli.

(** ** Sample servers *)

Module Servers.

(** Two readings of 2024-01-01 and one of 2024-01-02. *)
Definition readings : list WeatherJSON :=
  [ {| dt := 1704067200;
       main := {| main_temp := 280; main_temp_min := 279; main_temp_max := 281;
                  main_humidity := 55 |} |};
    {| dt := 1704078000;
       main := {| main_temp := 282; main_temp_min := 280; main_temp_max := 284;
                  main_humidity := 50 |} |};
    {| dt := 1704153600;
       main := {| main_temp := 278; main_temp_min := 275; main_temp_max := 279;
                  main_humidity := 60 |} |} ].

(** A server that answers 200 to every request, with these readings. *)
Definition forecast_server : Environment :=
  {| http_NewRequest := fun method url =>
       inl {| req_method := method; req_url := url; req_query := ∅ |};
     httpClient_Do := fun _ _ => inl {| StatusCode := 200; Body := EmptyString |};
     ioutil_ReadAll := fun resp => inl (Body resp);
     decode_weather := fun _ dest => (dest, None);
     decode_forecast := fun _ _ => ({| list_ := readings |}, None) |}.

(** A server that answers 401 to every request. *)
Definition refusing_server : Environment :=
  {| http_NewRequest := fun method url =>
       inl {| req_method := method; req_url := url; req_query := ∅ |};
     httpClient_Do := fun _ _ => inl {| StatusCode := 401; Body := "Invalid API key" |};
     ioutil_ReadAll := fun resp => inl (Body resp);
     decode_weather := fun _ dest => (dest, None);
     decode_forecast := fun _ dest => (dest, None) |}.

End Servers.

(** ** More sample forecasts *)

Module Samples.

(** Two observations, the second with a NaN temperature and humidity. *)
Definition one_NaN : list (@Weather CivilTime.api) :=
  [ Examples.observation (Examples.at_utc 1704067200) 60 50 70 40;
    Examples.observation (Examples.at_utc 1704078000) nan 48 75 nan ].

(** 2024-01-01 twice and 2024-01-02 once, interleaved in two ways. *)
Definition day1_day2_day1 : list (@Weather CivilTime.api) :=
  [ Examples.observation (Examples.at_utc 1704067200) 60 50 70 40;
    Examples.observation (Examples.at_utc 1704153600) 61 51 71 41;
    Examples.observation (Examples.at_utc 1704078000) 70 48 75 60 ].

Definition day1_day1_day2 : list (@Weather CivilTime.api) :=
  [ Examples.observation (Examples.at_utc 1704067200) 60 50 70 40;
    Examples.observation (Examples.at_utc 1704078000) 70 48 75 60;
    Examples.observation (Examples.at_utc 1704153600) 61 51 71 41 ].

(** 2024-01-02, then 2024-01-03. *)
Definition two_later_days : list (@Weather CivilTime.api) :=
  [ Examples.observation (Examples.at_utc 1704196800) 62 52 72 42;
    Examples.observation (Examples.at_utc 1704283200) 60 50 70 40 ].

End Samples.

(** * Properties *)

(** ** float64 comparisons *)

Section Float64.

Lemma SFcompare_refl (p : spec_float) :
  p ≠ S754_nan → SFcompare p p = Some Eq.
Proof.
  destruct p as [[]|[]| |[] m e]; simpl; try congruence; intros _;
    rewrite Z.compare_refl; change (Pos.compare_cont Eq m m) with (Pos.compare m m);
    rewrite Pos.compare_refl; reflexivity.
Qed.

Lemma SFcompare_antisym (p q : spec_float) :
  SFcompare q p = option_map CompOpp (SFcompare p q).
Proof.
  destruct p as [[]|[]| |[] m e], q as [[]|[]| |[] m' e']; simpl; try reflexivity;
    rewrite (Z.compare_antisym e e');
    change (Pos.compare_cont Eq m' m) with (Pos.compare m' m);
    change (Pos.compare_cont Eq m m') with (Pos.compare m m');
    rewrite (Pos.compare_antisym m m');
    destruct (e ?= e'); simpl; try reflexivity;
    destruct (m ?= m')%positive; reflexivity.
Qed.

Ltac compare_cases :=
  change (Pos.compare_cont Eq) with Pos.compare in *;
  repeat match goal with
    | H : context [Z.compare ?a ?b] |- _ => destruct (Z.compare_spec a b); simpl in H; try discriminate H
    | H : context [Pos.compare ?a ?b] |- _ => destruct (Pos.compare_spec a b); simpl in H; try discriminate H
    end;
  repeat match goal with
    | |- context [Z.compare ?a ?b] => destruct (Z.compare_spec a b); simpl; try lia
    | |- context [Pos.compare ?a ?b] => destruct (Pos.compare_spec a b); simpl; try lia
    end;
  try reflexivity; try congruence; try lia.

Lemma SFcompare_le_lt (p q r : spec_float) (c : comparison) :
  SFcompare p q = Some c → c ≠ Gt → SFcompare q r = Some Lt → SFcompare p r = Some Lt.
Proof.
  destruct p as [[]|[]| |[] m e], q as [[]|[]| |[] m' e'], r as [[]|[]| |[] m'' e''];
    simpl; intros Hpq Hc Hqr; try discriminate; try reflexivity;
    try (injection Hpq as <-; exfalso; apply Hc; reflexivity);
    injection Hpq as Hpq; injection Hqr as Hqr; f_equal; subst c; compare_cases.
Qed.

Lemma SFcompare_lt_le (p q r : spec_float) (c : comparison) :
  SFcompare p q = Some Lt → SFcompare q r = Some c → c ≠ Gt → SFcompare p r = Some Lt.
Proof.
  destruct p as [[]|[]| |[] m e], q as [[]|[]| |[] m' e'], r as [[]|[]| |[] m'' e''];
    simpl; intros Hpq Hqr Hc; try discriminate; try reflexivity;
    try (injection Hqr as <-; exfalso; apply Hc; reflexivity);
    injection Hpq as Hpq; injection Hqr as Hqr; f_equal; subst c; compare_cases.
Qed.

Lemma SFcompare_le_le (p q r : spec_float) (c c' : comparison) :
  SFcompare p q = Some c → c ≠ Gt → SFcompare q r = Some c' → c' ≠ Gt →
  ∃ c'', SFcompare p r = Some c'' ∧ c'' ≠ Gt.
Proof.
  intros Hpq Hc Hqr Hc'. destruct c'.
  - destruct c.
    + destruct p as [[]|[]| |[] m e], q as [[]|[]| |[] m' e'], r as [[]|[]| |[] m'' e''];
        simpl in *; try discriminate; try (eexists; split; [reflexivity|discriminate]);
        injection Hpq as Hpq; injection Hqr as Hqr; exists Eq; (split; [f_equal|discriminate]);
        compare_cases.
    + exists Lt. split; [|discriminate].
      destruct p as [[]|[]| |[] m e], q as [[]|[]| |[] m' e'], r as [[]|[]| |[] m'' e''];
        simpl in *; try discriminate; try reflexivity;
        injection Hpq as Hpq; injection Hqr as Hqr; f_equal; compare_cases.
    + congruence.
  - exists Lt. split; [|discriminate]. eapply SFcompare_le_lt; eassumption.
  - congruence.
Qed.

Lemma isNaN_false (x : float) :
  F64.isNaN x = false ↔ Prim2SF x ≠ S754_nan.
Proof.
  unfold F64.isNaN. rewrite FloatAxioms.eqb_spec. unfold SFeqb. split.
  - intros H E. rewrite E in H. discriminate H.
  - intros H. rewrite SFcompare_refl by exact H. reflexivity.
Qed.

Lemma lt_no_NaN (a b : float) :
  F64.lt a b = true → F64.isNaN a = false ∧ F64.isNaN b = false.
Proof.
  unfold F64.lt. rewrite FloatAxioms.ltb_spec. unfold SFltb. rewrite !isNaN_false.
  destruct (Prim2SF a), (Prim2SF b); simpl; intros H; try discriminate H; split; discriminate.
Qed.

Lemma le_refl (a : float) : F64.isNaN a = false → F64.le a a = true.
Proof.
  rewrite isNaN_false. intros H. unfold F64.le. rewrite FloatAxioms.leb_spec. unfold SFleb.
  rewrite SFcompare_refl by exact H. reflexivity.
Qed.

Lemma lt_le (a b : float) : F64.lt a b = true → F64.le a b = true.
Proof.
  unfold F64.lt, F64.le. rewrite FloatAxioms.ltb_spec, FloatAxioms.leb_spec. unfold SFltb, SFleb.
  destruct (SFcompare (Prim2SF a) (Prim2SF b)) as [[]|]; intros H; try discriminate H; reflexivity.
Qed.

Lemma le_lt_trans (a b c : float) :
  F64.le a b = true → F64.lt b c = true → F64.lt a c = true.
Proof.
  unfold F64.lt, F64.le. rewrite !FloatAxioms.ltb_spec, FloatAxioms.leb_spec. unfold SFltb, SFleb.
  destruct (SFcompare (Prim2SF a) (Prim2SF b)) as [cab|] eqn:Eab; [|discriminate].
  destruct (SFcompare (Prim2SF b) (Prim2SF c)) as [[]|] eqn:Ebc; try discriminate.
  intros Hab _. rewrite (SFcompare_le_lt _ _ _ cab Eab) by (try exact Ebc; intros ->; discriminate Hab).
  reflexivity.
Qed.

Lemma lt_le_trans (a b c : float) :
  F64.lt a b = true → F64.le b c = true → F64.lt a c = true.
Proof.
  unfold F64.lt, F64.le. rewrite !FloatAxioms.ltb_spec, FloatAxioms.leb_spec. unfold SFltb, SFleb.
  destruct (SFcompare (Prim2SF a) (Prim2SF b)) as [[]|] eqn:Eab; try discriminate.
  destruct (SFcompare (Prim2SF b) (Prim2SF c)) as [cbc|] eqn:Ebc; [|discriminate].
  intros _ Hbc. rewrite (SFcompare_lt_le _ _ _ cbc Eab Ebc) by (intros ->; discriminate Hbc).
  reflexivity.
Qed.

Lemma le_trans (a b c : float) :
  F64.le a b = true → F64.le b c = true → F64.le a c = true.
Proof.
  unfold F64.le. rewrite !FloatAxioms.leb_spec. unfold SFleb.
  destruct (SFcompare (Prim2SF a) (Prim2SF b)) as [cab|] eqn:Eab; [|discriminate].
  destruct (SFcompare (Prim2SF b) (Prim2SF c)) as [cbc|] eqn:Ebc; [|discriminate].
  intros Hab Hbc.
  assert (Hc : cab ≠ Gt) by (intros ->; discriminate Hab).
  assert (Hc' : cbc ≠ Gt) by (intros ->; discriminate Hbc).
  destruct (SFcompare_le_le _ _ _ cab cbc Eab Hc Ebc Hc') as (c'' & -> & Hc'').
  destruct c''; congruence.
Qed.

(** Without a NaN the order is total. *)
Lemma not_lt_le (a b : float) :
  F64.isNaN a = false → F64.isNaN b = false → F64.lt a b = false → F64.le b a = true.
Proof.
  rewrite !isNaN_false. unfold F64.lt, F64.le. rewrite FloatAxioms.ltb_spec, FloatAxioms.leb_spec.
  unfold SFltb, SFleb. rewrite (SFcompare_antisym (Prim2SF a) (Prim2SF b)).
  intros Ha Hb.
  destruct (SFcompare (Prim2SF a) (Prim2SF b)) as [[]|] eqn:E; simpl; try reflexivity; try discriminate.
  intros _. destruct (Prim2SF a), (Prim2SF b); simpl in E; congruence.
Qed.

Lemma le_no_NaN (a b : float) :
  F64.le a b = true → F64.isNaN a = false ∧ F64.isNaN b = false.
Proof.
  unfold F64.le. rewrite FloatAxioms.leb_spec. unfold SFleb. rewrite !isNaN_false.
  destruct (Prim2SF a), (Prim2SF b); simpl; intros H; try discriminate H; split; discriminate.
Qed.

Lemma le_Inf_neg (a : float) : F64.le a F64.Inf_neg = true → a = F64.Inf_neg.
Proof.
  unfold F64.le. rewrite FloatAxioms.leb_spec. unfold SFleb. intros H.
  apply Prim2SF_inj. change (Prim2SF F64.Inf_neg) with (S754_infinity true) in *.
  destruct (Prim2SF a) as [[]|[]| |[] m e]; simpl in H; try discriminate H; reflexivity.
Qed.

Lemma Inf_pos_le (a : float) : F64.le F64.Inf_pos a = true → a = F64.Inf_pos.
Proof.
  unfold F64.le. rewrite FloatAxioms.leb_spec. unfold SFleb. intros H.
  apply Prim2SF_inj. change (Prim2SF F64.Inf_pos) with (S754_infinity false) in *.
  destruct (Prim2SF a) as [[]|[]| |[] m e]; simpl in H; try discriminate H; reflexivity.
Qed.

End Float64.

(** ** The reducers *)

Section Reducers.
Context {tm : TimeAPI}.

Lemma max_step_unfold (acc : float) (w : Weather) :
  max_step acc w = if F64.lt acc (TemperatureMax w) then TemperatureMax w else acc.
Proof. reflexivity. Qed.

Lemma max_loop (f : Forecast) (acc : float) :
  F64.isNaN acc = false →
  let r := fold_left max_step f acc in
  F64.isNaN r = false ∧ (r = acc ∨ r ∈ TemperatureMax <$> f) ∧ F64.le acc r = true ∧
  ∀ w, w ∈ f → F64.isNaN (TemperatureMax w) = false → F64.le (TemperatureMax w) r = true.
Proof.
  revert acc. induction f as [|w f IH]; intros acc Hacc; simpl.
  - split; [exact Hacc|]. split; [left; reflexivity|]. split; [apply le_refl, Hacc|].
    intros w Hw. inversion Hw.
  - rewrite max_step_unfold. destruct (F64.lt acc (TemperatureMax w)) eqn:Hlt.
    + destruct (lt_no_NaN _ _ Hlt) as [_ Hx].
      destruct (IH _ Hx) as (Hr & Hin & Hle & Hall).
      split; [exact Hr|]. split; [|split].
      * right. destruct Hin as [->|Hin]; [left|right; exact Hin].
      * eapply le_trans; [apply lt_le; exact Hlt|exact Hle].
      * intros w' [->|Hw']%elem_of_cons Hn; auto.
    + destruct (IH _ Hacc) as (Hr & Hin & Hle & Hall).
      split; [exact Hr|]. split; [|split].
      * destruct Hin as [->|Hin]; [left; reflexivity|right; right; exact Hin].
      * exact Hle.
      * intros w' [->|Hw']%elem_of_cons Hn; auto.
        eapply le_trans; [|exact Hle]. apply not_lt_le; assumption.
Qed.

Lemma min_step_unfold (acc : float) (w : Weather) :
  min_step acc w = if F64.lt (TemperatureMin w) acc then TemperatureMin w else acc.
Proof. reflexivity. Qed.

Lemma min_loop (f : Forecast) (acc : float) :
  F64.isNaN acc = false →
  let r := fold_left min_step f acc in
  F64.isNaN r = false ∧ (r = acc ∨ r ∈ TemperatureMin <$> f) ∧ F64.le r acc = true ∧
  ∀ w, w ∈ f → F64.isNaN (TemperatureMin w) = false → F64.le r (TemperatureMin w) = true.
Proof.
  revert acc. induction f as [|w f IH]; intros acc Hacc; simpl.
  - split; [exact Hacc|]. split; [left; reflexivity|]. split; [apply le_refl, Hacc|].
    intros w Hw. inversion Hw.
  - rewrite min_step_unfold. destruct (F64.lt (TemperatureMin w) acc) eqn:Hlt.
    + destruct (lt_no_NaN _ _ Hlt) as [Hx _].
      destruct (IH _ Hx) as (Hr & Hin & Hle & Hall).
      split; [exact Hr|]. split; [|split].
      * right. destruct Hin as [->|Hin]; [left|right; exact Hin].
      * eapply le_trans; [exact Hle|apply lt_le; exact Hlt].
      * intros w' [->|Hw']%elem_of_cons Hn; auto.
    + destruct (IH _ Hacc) as (Hr & Hin & Hle & Hall).
      split; [exact Hr|]. split; [|split].
      * destruct Hin as [->|Hin]; [left; reflexivity|right; right; exact Hin].
      * exact Hle.
      * intros w' [->|Hw']%elem_of_cons Hn; auto.
        eapply le_trans; [exact Hle|]. apply not_lt_le; assumption.
Qed.

Lemma MaximumTemperature_no_NaN (f : Forecast) : F64.isNaN (MaximumTemperature f) = false.
Proof. apply (max_loop f F64.Inf_neg). reflexivity. Qed.

Lemma MinimumTemperature_no_NaN (f : Forecast) : F64.isNaN (MinimumTemperature f) = false.
Proof. apply (min_loop f F64.Inf_pos). reflexivity. Qed.

(** On a bucket with a member, the maximum reducer returns the greatest
    temperature-max exactly when none of them is NaN. *)
Lemma MaximumTemperature_max (f : Forecast) :
  f ≠ [] →
  float_max_of (MaximumTemperature f) (TemperatureMax <$> f) ↔ no_NaN (TemperatureMax <$> f).
Proof.
  intros Hne. split.
  - intros [_ Hall] x Hx. apply (le_no_NaN _ _ (Hall x Hx)).
  - intros Hnan. destruct (max_loop f F64.Inf_neg eq_refl) as (_ & Hin & _ & Hall).
    fold (MaximumTemperature f) in Hin, Hall.
    assert (Hle : ∀ x, x ∈ TemperatureMax <$> f → F64.le x (MaximumTemperature f) = true).
    { intros x Hx. pose proof (Hnan x Hx) as Hn.
      apply list_elem_of_fmap in Hx as (w & -> & Hw). auto. }
    split; [|exact Hle].
    destruct Hin as [E|Hin]; [|exact Hin].
    destruct f as [|w f]; [congruence|].
    assert (Hw : TemperatureMax w ∈ TemperatureMax <$> w :: f) by (simpl; left).
    specialize (Hle _ Hw). rewrite E in Hle. apply le_Inf_neg in Hle.
    rewrite E, <- Hle. exact Hw.
Qed.

Lemma MinimumTemperature_min (f : Forecast) :
  f ≠ [] →
  float_min_of (MinimumTemperature f) (TemperatureMin <$> f) ↔ no_NaN (TemperatureMin <$> f).
Proof.
  intros Hne. split.
  - intros [_ Hall] x Hx. apply (le_no_NaN _ _ (Hall x Hx)).
  - intros Hnan. destruct (min_loop f F64.Inf_pos eq_refl) as (_ & Hin & _ & Hall).
    fold (MinimumTemperature f) in Hin, Hall.
    assert (Hle : ∀ x, x ∈ TemperatureMin <$> f → F64.le (MinimumTemperature f) x = true).
    { intros x Hx. pose proof (Hnan x Hx) as Hn.
      apply list_elem_of_fmap in Hx as (w & -> & Hw). auto. }
    split; [|exact Hle].
    destruct Hin as [E|Hin]; [|exact Hin].
    destruct f as [|w f]; [congruence|].
    assert (Hw : TemperatureMin w ∈ TemperatureMin <$> w :: f) by (simpl; left).
    specialize (Hle _ Hw). rewrite E in Hle. apply Inf_pos_le in Hle.
    rewrite E, <- Hle. exact Hw.
Qed.

Lemma fold_left_fmap {A B C} (g : A → B) (op : C → B → C) (l : list A) (c : C) :
  fold_left (fun c a => op c (g a)) l c = fold_left op (g <$> l) c.
Proof. revert c. induction l as [|a l IH]; intros c; simpl; [reflexivity|apply IH]. Qed.

Lemma AverageTemperature_mean (f : Forecast) :
  AverageTemperature f = float_mean (Temperature <$> f).
Proof.
  unfold AverageTemperature, float_mean.
  rewrite length_fmap, <- (fold_left_fmap Temperature PrimFloat.add). reflexivity.
Qed.

Lemma AverageHumidity_mean (f : Forecast) :
  AverageHumidity f = float_mean (Humidity <$> f).
Proof.
  unfold AverageHumidity, float_mean.
  rewrite length_fmap, <- (fold_left_fmap Humidity PrimFloat.add). reflexivity.
Qed.

End Reducers.

(** ** The grouping loop *)

Section Grouping.
Context {tm : TimeAPI}.

Lemma group_snoc (f : Forecast) (w : Weather) :
  group (f ++ [w]) = group_step (group f) w.
Proof. unfold group. rewrite fold_left_app. reflexivity. Qed.

Lemma bucket_snoc (f : Forecast) (w : Weather) (k : string) :
  bucket (f ++ [w]) k = bucket f k ++ (if decide (day_key w = k) then [w] else []).
Proof.
  unfold bucket. rewrite filter_app. reflexivity.
Qed.

Lemma bucket_nil_iff (f : Forecast) (k : string) :
  bucket f k = [] ↔ k ∉ day_key <$> f.
Proof.
  unfold bucket. rewrite list_elem_of_fmap. split.
  - intros E (w & -> & Hw).
    assert (Hin : w ∈ filter (fun w' => day_key w' = day_key w) f)
      by (apply list_elem_of_filter; split; [reflexivity|exact Hw]).
    rewrite E in Hin. inversion Hin.
  - intros Hno. induction f as [|w f IH]; [reflexivity|].
    rewrite filter_cons. destruct (decide (day_key w = k)) as [E|E].
    + exfalso. apply Hno. exists w. split; [symmetry; exact E|left].
    + apply IH. intros (w' & E' & Hw'). apply Hno. exists w'. split; [exact E'|right; exact Hw'].
Qed.

(** After the first loop the map holds, under each day key of the input,
    the observations of that key in input order, and nothing else. *)
Lemma group_days (f : Forecast) (k : string) :
  days (group f) !! k = if decide (bucket f k = []) then None else Some (bucket f k).
Proof.
  induction f as [|w f IH] using rev_ind; [reflexivity|].
  rewrite group_snoc, bucket_snoc. unfold group_step; simpl.
  fold (day_key w). destruct (decide (day_key w = k)) as [E|E].
  - rewrite E, lookup_insert_eq, IH.
    destruct (decide (bucket f k = [])) as [Eb|Eb]; simpl.
    + rewrite Eb. reflexivity.
    + destruct (decide (bucket f k ++ [w] = [])) as [Ec|_]; [|reflexivity].
      destruct (bucket f k); discriminate Ec.
  - rewrite lookup_insert_ne by exact E. rewrite app_nil_r. exact IH.
Qed.

Lemma group_hourly (f : Forecast) (k : string) :
  default [] (days (group f) !! k) = bucket f k.
Proof.
  rewrite group_days. destruct (decide (bucket f k = [])) as [E|E]; simpl; congruence.
Qed.

Lemma group_keys (f : Forecast) :
  NoDup (keys (group f)) ∧ ∀ k, k ∈ keys (group f) ↔ k ∈ day_key <$> f.
Proof.
  induction f as [|w f [IHnd IHin]] using rev_ind.
  - split; [constructor|]. intros k. simpl. split; intros H; inversion H.
  - rewrite group_snoc. unfold group_step; simpl. fold (day_key w).
    rewrite group_days, fmap_app. simpl.
    destruct (decide (bucket f (day_key w) = [])) as [E|E].
    + apply bucket_nil_iff in E. split.
      * apply NoDup_app. split; [exact IHnd|]. split; [|apply NoDup_singleton].
        intros k Hk ->%list_elem_of_singleton. apply E, IHin, Hk.
      * intros k. rewrite !elem_of_app, IHin. reflexivity.
    + split; [exact IHnd|]. intros k. rewrite elem_of_app, IHin.
      split; [auto|]. intros [H| ->%list_elem_of_singleton]; [exact H|].
      destruct (decide (day_key w ∈ day_key <$> f)) as [Hin|Hin]; [exact Hin|].
      apply bucket_nil_iff in Hin. contradiction.
Qed.

(** The location is fixed by the first observation of the whole input. *)
Lemma group_loc (f : Forecast) :
  loc (group f) = (fun w => Time_Location (Date w)) <$> head f.
Proof.
  induction f as [|w f IH] using rev_ind; [reflexivity|].
  rewrite group_snoc. unfold group_step; simpl. rewrite IH.
  destruct f as [|w0 f]; reflexivity.
Qed.

Lemma sort_Strings_sorted (ks : list string) : StronglySorted String.le (sort_Strings ks).
Proof. apply StronglySorted_merge_sort; apply _. Qed.

Lemma sort_Strings_perm (ks : list string) : sort_Strings ks ≡ₚ ks.
Proof. apply merge_sort_Permutation. Qed.

Lemma day_keys_group (f : Forecast) : sort_Strings (keys (group f)) = day_keys f.
Proof.
  apply (StronglySorted_unique String.le); try apply sort_Strings_sorted.
  unfold day_keys. rewrite !sort_Strings_perm.
  destruct (group_keys f) as [Hnd Hin].
  apply NoDup_Permutation; [exact Hnd|apply NoDup_remove_dups|].
  intros k. rewrite Hin, elem_of_remove_dups. reflexivity.
Qed.

Lemma day_keys_elem (f : Forecast) (k : string) :
  k ∈ day_keys f ↔ ∃ w, w ∈ f ∧ day_key w = k.
Proof.
  unfold day_keys. rewrite sort_Strings_perm, elem_of_remove_dups, list_elem_of_fmap.
  split; intros (w & H1 & H2); exists w; auto.
Qed.

Lemma day_keys_NoDup (f : Forecast) : NoDup (day_keys f).
Proof.
  unfold day_keys. rewrite sort_Strings_perm. apply NoDup_remove_dups.
Qed.

Lemma StronglySorted_lt (ks : list string) :
  NoDup ks → StronglySorted String.le ks → StronglySorted String_lt ks.
Proof.
  induction 2 as [|k ks Hs IH Hall]; constructor.
  - apply IH. eapply NoDup_cons_1_2; eassumption.
  - apply NoDup_cons in H as [Hk _]. rewrite Forall_forall in *.
    intros k' Hk'. split; [apply Hall, Hk'|]. intros ->. apply Hk, Hk'.
Qed.

Lemma day_keys_ascending (f : Forecast) : StronglySorted String_lt (day_keys f).
Proof.
  apply StronglySorted_lt; [apply day_keys_NoDup|apply sort_Strings_sorted].
Qed.

Lemma summarize_Some (g : grouping) (l : time_Location) (k : string) :
  loc g = Some l →
  summarize g k =
  Ok {| Date := fst (time_ParseInLocation day_layout k l);
        Humidity := AverageHumidity (default [] (days g !! k));
        Temperature := AverageTemperature (default [] (days g !! k));
        TemperatureMin := MinimumTemperature (default [] (days g !! k));
        TemperatureMax := MaximumTemperature (default [] (days g !! k)) |}.
Proof. intros Hl. unfold summarize. rewrite Hl. reflexivity. Qed.

(** The second loop, once a location is known. *)
Lemma range_append_summarize (g : grouping) (l : time_Location) (ks : list string)
    (acc : Forecast) :
  loc g = Some l →
  range_append (summarize g) ks acc =
  Ok (acc ++ ((fun k =>
                 {| Date := fst (time_ParseInLocation day_layout k l);
                    Humidity := AverageHumidity (default [] (days g !! k));
                    Temperature := AverageTemperature (default [] (days g !! k));
                    TemperatureMin := MinimumTemperature (default [] (days g !! k));
                    TemperatureMax := MaximumTemperature (default [] (days g !! k)) |})
              <$> ks)).
Proof.
  intros Hl. revert acc. induction ks as [|k ks IH]; intros acc; simpl.
  - rewrite app_nil_r. reflexivity.
  - rewrite (summarize_Some g l k Hl). simpl. rewrite IH, <- app_assoc. reflexivity.
Qed.

(** What [Daily] computes: it never panics, and its result lists the
    summaries of the buckets by ascending day key, each dated in the
    location of the first observation. *)
Lemma Daily_eq (w0 : Weather) (f : Forecast) :
  Daily (w0 :: f) =
  Ok (day_summary (Time_Location (Date w0)) (w0 :: f) <$> day_keys (w0 :: f)).
Proof.
  unfold Daily. rewrite day_keys_group.
  rewrite (range_append_summarize _ (Time_Location (Date w0))) by (rewrite group_loc; reflexivity).
  simpl. f_equal. apply list_fmap_ext. intros i k _.
  unfold day_summary. rewrite group_hourly. reflexivity.
Qed.

Lemma Daily_nil : Daily [] = Ok [].
Proof. reflexivity. Qed.

Lemma Daily_eq_loc (f : Forecast) (l : time_Location) :
  (∀ w0, head f = Some w0 → Time_Location (Date w0) = l) →
  Daily f = Ok (day_summary l f <$> day_keys f).
Proof.
  intros Hl. destruct f as [|w0 f]; [reflexivity|].
  rewrite Daily_eq, (Hl w0 eq_refl). reflexivity.
Qed.

End Grouping.

(** ** Daily *)

Section DailyProperties.
Context {tm : TimeAPI}.

Lemma Forall2_fmap_intro {A B} (P : A → B → Prop) (g : A → B) (l : list A) :
  (∀ a, a ∈ l → P a (g a)) → Forall2 P l (g <$> l).
Proof.
  induction l as [|a l IH]; intros H; simpl; constructor.
  - apply H. left.
  - apply IH. intros a' Ha'. apply H. right. exact Ha'.
Qed.

(** [Daily] returns, for every input, the summaries of the day keys in
    ascending order. *)
Lemma Daily_summaries (f : Forecast) (P : string → Weather → Prop) :
  (∀ w0 f' k, f = w0 :: f' → k ∈ day_keys f →
              P k (day_summary (Time_Location (Date w0)) f k)) →
  ∃ ds, Daily f = Ok ds ∧ Forall2 P (day_keys f) ds.
Proof.
  intros H. destruct f as [|w0 f'].
  - exists []. split; [reflexivity|constructor].
  - eexists. split; [apply Daily_eq|].
    apply Forall2_fmap_intro. intros k Hk. eapply H; [reflexivity|exact Hk].
Qed.

Lemma day_keys_bucket (f : Forecast) (k : string) : k ∈ day_keys f → bucket f k ≠ [].
Proof.
  intros (w & Hw & E)%day_keys_elem Hb. apply bucket_nil_iff in Hb.
  apply Hb, list_elem_of_fmap. exists w. auto.
Qed.

(** C1, as amended: every summary of [Daily f] aggregates the bucket of
    its own day key.  Its temperature-max is the greatest of the members'
    temperature-max values exactly when none of these is NaN, its
    temperature-min the least of their temperature-min values exactly
    when none of those is NaN; its temperature and its humidity are the
    float64 means of the members' temperatures and humidities. *)
Theorem Daily_aggregates_numbers (f : Forecast) :
  ∃ ds, Daily f = Ok ds ∧
        Forall2 (fun k s => aggregates_of_numbers s (bucket f k)) (day_keys f) ds.
Proof.
  apply Daily_summaries. intros w0 f' k _ Hk.
  pose proof (day_keys_bucket f k Hk) as Hne.
  unfold aggregates_of_numbers, day_summary; simpl.
  split; [apply MaximumTemperature_max, Hne|].
  split; [apply MinimumTemperature_min, Hne|].
  split; [apply AverageTemperature_mean|apply AverageHumidity_mean].
Qed.

Lemma day_keys_Permutation (f f' : Forecast) : f ≡ₚ f' → day_keys f = day_keys f'.
Proof.
  intros Hp. apply (StronglySorted_unique String.le); try apply sort_Strings_sorted.
  unfold day_keys. rewrite !sort_Strings_perm.
  apply NoDup_Permutation; try apply NoDup_remove_dups.
  intros k. rewrite !elem_of_remove_dups, Hp. reflexivity.
Qed.

Lemma bucket_Permutation_fields (f : Forecast) (k : string) (w : Weather) :
  w ∈ bucket f k ↔ w ∈ f ∧ day_key w = k.
Proof. unfold bucket. rewrite list_elem_of_filter. tauto. Qed.

(** C2, the part that holds of every input and every [time] package:
    whatever the order of the observations, the summaries come by strictly
    ascending day key in byte order, not by first encounter: one strictly
    ascending list of the day keys of [f] is such that [Daily], on [f] and
    on every reordering of [f], returns one summary per key of that list,
    in the order of the list, each summarising the bucket of its key.
    Nothing is said of the order of the summaries' dates, which is not
    that of the keys when a key does not parse. *)
Theorem Daily_sorted_by_day_key (f : Forecast) :
  ∃ ks, StronglySorted String_lt ks ∧
        (∀ k, k ∈ ks ↔ ∃ w, w ∈ f ∧ day_key w = k) ∧
        ∀ f', f' ≡ₚ f →
          ∃ ds, Daily f' = Ok ds ∧
                Forall2 (fun k s => ∃ l, s = day_summary l f' k) ks ds.
Proof.
  exists (day_keys f). split; [apply day_keys_ascending|].
  split; [apply day_keys_elem|].
  intros f' Hp. rewrite <- (day_keys_Permutation _ _ Hp).
  apply Daily_summaries. intros w0 f'' k _ _. eexists. reflexivity.
Qed.

Lemma concat_buckets (ks : list string) (f : Forecast) :
  NoDup ks → (∀ w, w ∈ f → day_key w ∈ ks) → concat (bucket f <$> ks) ≡ₚ f.
Proof.
  revert f. induction ks as [|k ks IH]; intros f Hnd Hcov; simpl.
  - destruct f as [|w f]; [reflexivity|].
    specialize (Hcov w (ltac:(left))). inversion Hcov.
  - apply NoDup_cons in Hnd as [Hk Hnd].
    trans (filter (fun w => day_key w = k) f ++ filter (fun w => ¬ day_key w = k) f);
      [|apply filter_app_complement].
    apply Permutation_app; [reflexivity|].
    trans (concat (bucket (filter (fun w => ¬ day_key w = k) f) <$> ks)).
    + apply Permutation_refl'. f_equal. apply list_fmap_ext. intros i k' Hk'.
      unfold bucket. rewrite list_filter_filter. apply list_filter_iff.
      intros w. split; [|tauto]. intros E. split; [exact E|].
      intros E'. apply Hk. rewrite <- E', E. eapply list_elem_of_lookup_2, Hk'.
    + apply IH; [exact Hnd|].
      intros w [Hw1 Hw2]%list_elem_of_filter.
      specialize (Hcov w Hw2). apply elem_of_cons in Hcov as [E|Hin]; [|exact Hin].
      contradiction.
Qed.

(** C3: the buckets that the first loop of [Daily] builds, read in the
    order of the sorted keys as the second loop does, are a partition of
    the input: their concatenation is a permutation of [f], buckets of
    different keys share no observation, each bucket holds exactly the
    observations whose day key is its key, and two observations of [f]
    lie in one bucket if and only if their day keys are equal strings. *)
Theorem Daily_buckets_partition (f : Forecast) :
  let g := group f in
  let hourly := fun k => default [] (days g !! k) in
  concat (hourly <$> sort_Strings (keys g)) ≡ₚ f ∧
  (∀ k1 k2 w, w ∈ hourly k1 → w ∈ hourly k2 → k1 = k2) ∧
  (∀ k w, w ∈ hourly k ↔ w ∈ f ∧ day_key w = k) ∧
  (∀ w1 w2, w1 ∈ f → w2 ∈ f →
     (∃ k, w1 ∈ hourly k ∧ w2 ∈ hourly k) ↔ day_key w1 = day_key w2).
Proof.
  intros g hourly.
  assert (Hh : ∀ k w, w ∈ hourly k ↔ w ∈ f ∧ day_key w = k).
  { intros k w. unfold hourly, g. rewrite group_hourly. apply bucket_Permutation_fields. }
  split; [|split; [|split]].
  - unfold g. rewrite day_keys_group.
    replace (hourly <$> day_keys f) with (bucket f <$> day_keys f)
      by (apply list_fmap_ext; intros i k _; unfold hourly, g; rewrite group_hourly; reflexivity).
    apply concat_buckets; [apply day_keys_NoDup|].
    intros w Hw. apply day_keys_elem. exists w. auto.
  - intros k1 k2 w [_ E1]%Hh [_ E2]%Hh. congruence.
  - exact Hh.
  - intros w1 w2 H1 H2. split.
    + intros (k & [_ E1]%Hh & [_ E2]%Hh). congruence.
    + intros E. exists (day_key w1). rewrite !Hh. auto.
Qed.

Lemma Forall2_length_eq {A B} (P : A → B → Prop) (l : list A) (l' : list B) :
  Forall2 P l l' → length l' = length l.
Proof. induction 1; simpl; congruence. Qed.

(** C4: [Daily f] has as many entries as [f] has distinct day keys. *)
Theorem Daily_length (f : Forecast) :
  ∃ ds, Daily f = Ok ds ∧
        length ds = size (list_to_set (day_key <$> f) : gset string).
Proof.
  destruct (Daily_summaries f (fun _ _ => True)) as (ds & Hd & Hall); [auto|].
  exists ds. split; [exact Hd|].
  rewrite (Forall2_length_eq _ _ _ Hall). unfold day_keys.
  rewrite sort_Strings_perm, <- (size_list_to_set (C:=gset string)) by apply NoDup_remove_dups.
  f_equal. apply set_eq. intros k. rewrite !elem_of_list_to_set, elem_of_remove_dups.
  reflexivity.
Qed.

(** C5: [Daily] is total: the empty forecast gives the empty sequence,
    and on every forecast the call returns a sequence; the one panic the
    body could raise, [time.Date] on a nil location, does not occur. *)
Theorem Daily_total :
  Daily [] = Ok [] ∧ ∀ f : Forecast, ∃ ds, Daily f = Ok ds.
Proof.
  split; [reflexivity|]. intros f.
  destruct (Daily_summaries f (fun _ _ => True)) as (ds & Hd & _); [auto|].
  exists ds. exact Hd.
Qed.

(** C6: on the empty forecast the maximum reducer returns negative
    infinity and the minimum reducer positive infinity. *)
Theorem extrema_of_empty :
  MaximumTemperature [] = F64.Inf_neg ∧ MinimumTemperature [] = F64.Inf_pos ∧
  Prim2SF F64.Inf_neg = S754_infinity true ∧ Prim2SF F64.Inf_pos = S754_infinity false.
Proof. repeat split; reflexivity. Qed.

(** C8, what holds of every non-empty input and every [time] package:
    every summary is dated with what [time.ParseInLocation] returns, its
    error dropped, for the day key of the bucket in the location of the
    first observation of the whole input, whatever the locations of the
    other observations; so the date is midnight of that day there exactly
    as far as the parsed key is. *)
Theorem Daily_dates_in_first_location (w0 : Weather) (f : Forecast) :
  ∃ ds, Daily (w0 :: f) = Ok ds ∧
        Forall2 (fun k s =>
                   let l0 := Time_Location (Date w0) in
                   Date s = fst (time_ParseInLocation day_layout k l0) ∧
                   (midnight_of (fst (time_ParseInLocation day_layout k l0)) k l0 →
                    midnight_of (Date s) k l0))
                (day_keys (w0 :: f)) ds.
Proof.
  apply Daily_summaries. intros w0' f' k E _. injection E as <- <-.
  simpl. split; [reflexivity|auto].
Qed.

End DailyProperties.

(** ** Summarising a summary *)

Section Idempotence.
Context {tm : TimeAPI}.

Lemma bounded_cases (m : positive) (e : Z) :
  bounded prec emax m e = true →
  e <= 971 ∧ Z.max (Zpos (digits2_pos m) + e - 53) (-1074) = e.
Proof.
  unfold bounded, canonical_mantissa, fexp, emin, prec, emax.
  intros H. apply andb_prop in H as [H1 H2].
  apply Z.eqb_eq in H1. apply Z.leb_le in H2. simpl in *. lia.
Qed.

Lemma div_eucl_shift (m : positive) (s : Z) :
  52 <= s →
  IntDef.Z.div_eucl (IntDef.Z.shiftl (Zpos m) s) 4503599627370496 =
  (Zpos m * 2 ^ (s - 52), 0).
Proof.
  intros Hs. change IntDef.Z.div_eucl with Z.div_eucl. change IntDef.Z.shiftl with Z.shiftl.
  rewrite Z.shiftl_mul_pow2 by lia.
  replace (2 ^ s) with (2 ^ (s - 52) * 4503599627370496).
  2:{ change 4503599627370496 with (2 ^ 52). rewrite <- Z.pow_add_r by lia. f_equal. lia. }
  rewrite Z.mul_assoc.
  pose proof (Z_div_mod (Zpos m * 2 ^ (s - 52) * 4503599627370496) 4503599627370496 eq_refl) as H.
  destruct (Z.div_eucl _ _) as [q r]. destruct H as [H1 H2].
  assert (r = 0 ∧ q = Zpos m * 2 ^ (s - 52)) as [-> ->]; [|reflexivity].
  nia.
Qed.

Lemma shr_fexp_0 (m e : Z) (l : location) :
  Z.max (Zdigits2 m + e - 53) (-1074) = e →
  shr_fexp prec emax m e l = (shr_record_of_loc m l, e).
Proof.
  intros H. unfold shr_fexp, fexp, emin, prec, emax.
  change (3 - 1024 - 53) with (-1074). rewrite H, Z.sub_diag. reflexivity.
Qed.

Lemma shr_fexp_1 (p : positive) (e : Z) :
  Z.max (Zdigits2 (Zpos p~0) + e - 53) (-1074) = e + 1 →
  shr_fexp prec emax (Zpos p~0) e loc_Exact =
  ({| shr_m := Zpos p; shr_r := false; shr_s := false |}, e + 1).
Proof.
  intros H. unfold shr_fexp, fexp, emin, prec, emax.
  change (3 - 1024 - 53) with (-1074). rewrite H.
  replace (e + 1 - e) with 1 by lia. reflexivity.
Qed.

Lemma binary_round_aux_canonical (s : bool) (m : positive) (e : Z) :
  Z.max (Zpos (digits2_pos m) + e - 53) (-1074) = e → e <= 971 →
  binary_round_aux prec emax s (Zpos m) e loc_Exact = S754_finite s m e.
Proof.
  intros Hc He. unfold binary_round_aux.
  rewrite shr_fexp_0 by exact Hc.
  cbn [shr_record_of_loc shr_m loc_of_shr_record round_nearest_even].
  rewrite shr_fexp_0 by exact Hc.
  cbn [shr_record_of_loc shr_m].
  replace (e <=? emax - prec) with true; [reflexivity|].
  symmetry. apply Z.leb_le. unfold emax, prec. lia.
Qed.

(** Dividing a binary64 number by one is exact. *)
Lemma SFdiv_one (s : bool) (m : positive) (e : Z) :
  bounded prec emax m e = true →
  SFdiv prec emax (S754_finite s m e) F64.one_SF = S754_finite s m e.
Proof.
  intros Hb. apply bounded_cases in Hb as [He Hc].
  unfold SFdiv, F64.one_SF, SFdiv_core_binary.
  change (Zdigits2 (Zpos 4503599627370496)) with 53.
  change (Zdigits2 (Zpos m)) with (Zpos (digits2_pos m)).
  rewrite xorb_false_r.
  assert (Hd : 0 < Zpos (digits2_pos m)) by lia.
  unfold fexp, emin, prec, emax. change (3 - 1024 - 53) with (-1074).
  change IntDef.Z.min with Z.min. change IntDef.Z.max with Z.max.
  destruct (Z.eq_dec e (-1074)) as [E|E].
  - subst e.
    replace (Z.min _ _) with (-1074) by lia.
    change (-1074 - -52 - -1074) with 52.
    cbv iota. rewrite div_eucl_shift by lia. change (2 ^ (52 - 52)) with 1. rewrite Z.mul_1_r.
    change (new_location 4503599627370496 0) with loc_Exact.
    apply binary_round_aux_canonical; assumption.
  - replace (Z.min _ _) with (e - 1) by lia.
    replace (e - -52 - (e - 1)) with 53 by lia.
    cbv iota. rewrite div_eucl_shift by lia. change (2 ^ (53 - 52)) with 2.
    change (new_location 4503599627370496 0) with loc_Exact.
    replace (Zpos m * 2) with (Zpos m~0) by lia.
    unfold binary_round_aux.
    rewrite shr_fexp_1 by (change (Zdigits2 (Zpos m~0)) with (Zpos (Pos.succ (digits2_pos m))); lia).
    cbn [shr_m loc_of_shr_record round_nearest_even].
    replace (e - 1 + 1) with e by lia.
    rewrite shr_fexp_0 by exact Hc.
    cbn [shr_record_of_loc shr_m].
    replace (e <=? 1024 - 53) with true; [reflexivity|].
    symmetry. apply Z.leb_le. lia.
Qed.

Lemma same_refl (x : float) : F64.same x x = true.
Proof.
  unfold F64.same. destruct (F64.isNaN x) eqn:E.
  - simpl. apply orb_true_r.
  - unfold F64.isNaN in E. apply negb_false_iff in E. unfold F64.eq. rewrite E. reflexivity.
Qed.

(** The mean of one value is that value (a negative zero comes back positive). *)
Lemma mean_singleton (x : float) :
  F64.same ((F64.zero + x) / F64.of_int 1)%float x = true.
Proof.
  unfold F64.same, F64.eq, F64.isNaN.
  rewrite !FloatAxioms.eqb_spec, div_spec, add_spec.
  change (Prim2SF (F64.of_int 1)) with F64.one_SF.
  change (Prim2SF F64.zero) with (S754_zero false).
  pose proof (Prim2SF_valid x) as Hv.
  destruct (Prim2SF x) as [[]|[]| |s m e]; try reflexivity.
  unfold SF64add, SFadd. unfold SF64div. rewrite (SFdiv_one s m e Hv).
  unfold SFeqb. rewrite SFcompare_refl by discriminate. reflexivity.
Qed.

Lemma max_singleton (w : Weather) :
  F64.isNaN (TemperatureMax w) = false → MaximumTemperature [w] = TemperatureMax w.
Proof.
  intros Hn. unfold MaximumTemperature. simpl. rewrite max_step_unfold.
  destruct (F64.lt F64.Inf_neg (TemperatureMax w)) eqn:E; [reflexivity|].
  symmetry. apply le_Inf_neg, not_lt_le; auto.
Qed.

Lemma min_singleton (w : Weather) :
  F64.isNaN (TemperatureMin w) = false → MinimumTemperature [w] = TemperatureMin w.
Proof.
  intros Hn. unfold MinimumTemperature. simpl. rewrite min_step_unfold.
  destruct (F64.lt (TemperatureMin w) F64.Inf_pos) eqn:E; [reflexivity|].
  symmetry. apply Inf_pos_le, not_lt_le; auto.
Qed.

Lemma bucket_of_distinct (g : string → Weather) (ks : list string) (k : string) :
  NoDup ks → (∀ k', k' ∈ ks → day_key (g k') = k') → k ∈ ks →
  bucket (g <$> ks) k = [g k].
Proof.
  unfold bucket. induction ks as [|k0 ks IH]; intros Hnd Hkey Hk; [inversion Hk|].
  apply NoDup_cons in Hnd as [Hk0 Hnd]. simpl. rewrite filter_cons.
  rewrite (Hkey k0) by left.
  destruct (decide (k0 = k)) as [->|Hne].
  - f_equal. apply (proj2 (bucket_nil_iff (g <$> ks) k)).
    rewrite <- list_fmap_compose. intros (k' & E & Hk')%list_elem_of_fmap.
    simpl in E. rewrite (Hkey k') in E by (right; exact Hk'). subst k'. contradiction.
  - apply IH; [exact Hnd| |].
    + intros k' Hk'. apply Hkey. right. exact Hk'.
    + apply elem_of_cons in Hk as [->|Hk]; [contradiction|exact Hk].
Qed.

Lemma Forall2_fmap_same {A B} (P : B → B → Prop) (g h : A → B) (l : list A) :
  (∀ a, a ∈ l → P (g a) (h a)) → Forall2 P (g <$> l) (h <$> l).
Proof.
  induction l as [|a l IH]; intros H; simpl; constructor.
  - apply H. left.
  - apply IH. intros a' Ha'. apply H. right. exact Ha'.
Qed.

Lemma sorted_day_keys_fixed (ks : list string) :
  NoDup ks → StronglySorted String.le ks → sort_Strings (remove_dups ks) = ks.
Proof.
  intros Hnd Hs. apply (StronglySorted_unique String.le); [apply sort_Strings_sorted|exact Hs|].
  rewrite sort_Strings_perm.
  apply NoDup_Permutation; [apply NoDup_remove_dups|exact Hnd|].
  intros k. apply elem_of_remove_dups.
Qed.

(** C7, under the condition it needs, on every [time] package: when
    every day key of [f], parsed in the location of the first observation,
    formats back to itself and stays in that location, [Daily] applied to
    [Daily f] is defined and returns, entry by entry, the dates of
    [Daily f] and float64 values equal to its temperatures, extrema and
    humidities (equal under [==], or NaN on both sides). *)
Theorem Daily_idempotent_round_trip (f : Forecast) :
  keys_round_trip f → Daily_idempotent f.
Proof.
  intros Hrt. destruct f as [|w0 f'].
  - exists []. split; [reflexivity|]. exists []. split; [reflexivity|constructor].
  - specialize (Hrt w0 f' eq_refl). rewrite Forall_forall in Hrt.
    set (f := w0 :: f') in *. set (l0 := Time_Location (Date w0)) in *.
    set (g := day_summary l0 f).
    assert (Hkey : ∀ k, k ∈ day_keys f → day_key (g k) = k) by (intros k Hk; apply (Hrt k Hk)).
    assert (Hkeys : day_keys (g <$> day_keys f) = day_keys f).
    { unfold day_keys at 1. rewrite <- list_fmap_compose.
      rewrite (list_fmap_ext (day_key ∘ g) id (day_keys f))
        by (intros i k Hk; apply Hkey; eapply list_elem_of_lookup_2, Hk).
      rewrite list_fmap_id.
      apply sorted_day_keys_fixed; [apply day_keys_NoDup|apply sort_Strings_sorted]. }
    exists (g <$> day_keys f). split; [apply Daily_eq|].
    exists (day_summary l0 (g <$> day_keys f) <$> day_keys f). split.
    + rewrite (Daily_eq_loc (g <$> day_keys f) l0); [rewrite Hkeys; reflexivity|].
      intros s0 Hs0. destruct (day_keys f) as [|k0 ks] eqn:Ek0; [discriminate Hs0|].
      injection Hs0 as <-. apply (Hrt k0). left.
    + apply Forall2_fmap_same. intros k Hk.
      unfold day_summary at 1.
      rewrite (bucket_of_distinct g (day_keys f) k (day_keys_NoDup f) Hkey Hk).
      unfold Weather_same; simpl.
      split; [reflexivity|].
      split; [apply mean_singleton|].
      split; [rewrite min_singleton by apply MinimumTemperature_no_NaN; apply same_refl|].
      split; [rewrite max_singleton by apply MaximumTemperature_no_NaN; apply same_refl|].
      apply mean_singleton.
Qed.

End Idempotence.

(** ** The client *)

Section ClientProperties.
Context {tm : TimeAPI} {env : Environment}.

(** C10: whenever [GetCurrentWeather] succeeds, the humidity of the
    value it returns is zero, whatever humidity the decoded response
    holds: the other fields are those of the response, the humidity is
    not copied. *)
Theorem GetCurrentWeather_Humidity_zero (c : Client) (zip : string) (w : Weather) :
  GetCurrentWeather c zip = (w, None) →
  Humidity w = F64.zero ∧
  ∃ resp, makeRequest c WeatherJSON_zero "weather" (Values_Set ∅ "zip" zip) = (resp, None) ∧
          Date w = time_Unix (dt resp) 0 ∧
          Temperature w = main_temp (main resp) ∧
          TemperatureMin w = main_temp_min (main resp) ∧
          TemperatureMax w = main_temp_max (main resp).
Proof.
  unfold GetCurrentWeather.
  destruct (makeRequest c WeatherJSON_zero "weather" (Values_Set ∅ "zip" zip))
    as [resp [err|]]; intros H; [discriminate H|].
  injection H as <-. split; [reflexivity|].
  exists resp. repeat split.
Qed.

End ClientProperties.


(** ** Daily on slices in memory *)

Section MemoryProperties.
Context {tm : TimeAPI}.
Context (growcap : nat → nat).

Implicit Types (h : gmap positive (list Weather)) (s f : slice) (w : Weather).

Lemma slice_valid_length h s :
  slice_valid h s → length (slice_contents h s) = s_len s.
Proof.
  unfold slice_valid, slice_contents. destruct (s_arr s) as [a|].
  - intros (arr & -> & Hcap & Hlen). simpl.
    rewrite length_take, length_drop. lia.
  - intros [-> _]. reflexivity.
Qed.

Lemma slice_get_contents h s (i : nat) w :
  slice_contents h s !! i = Some w → slice_get s i h = Ok (w, h).
Proof.
  unfold slice_contents, slice_get. destruct (s_arr s) as [a|]; [|intros H; inversion H].
  intros [H Hi]%lookup_take_Some. rewrite lookup_drop in H.
  apply Nat.ltb_lt in Hi. rewrite Hi, H. reflexivity.
Qed.

(** A loop whose body only computes reads the slice and leaves the store. *)
Lemma range_from_pure {A} (step : A → Weather → A) h s (n i : nat) (acc : A) :
  slice_valid h s → (i + n)%nat = s_len s →
  range_from s (fun a w => mem_ret (step a w)) i n acc h =
  Ok (fold_left step (drop i (slice_contents h s)) acc, h).
Proof.
  intros Hv. revert i acc. induction n as [|n IH]; intros i acc Hi; simpl.
  - rewrite drop_ge by (rewrite slice_valid_length by exact Hv; lia). reflexivity.
  - destruct (lookup_lt_is_Some_2 (slice_contents h s) i) as [w Hw];
      [rewrite slice_valid_length by exact Hv; lia|].
    unfold mem_bind at 1. rewrite (slice_get_contents _ _ _ _ Hw).
    unfold mem_bind at 1, mem_ret at 1. rewrite IH by lia.
    rewrite (drop_S _ _ _ Hw). reflexivity.
Qed.

Lemma range_slice_pure {A} (step : A → Weather → A) h s (acc : A) :
  slice_valid h s →
  range_slice s (fun a w => mem_ret (step a w)) acc h =
  Ok (fold_left step (slice_contents h s) acc, h).
Proof. intros Hv. unfold range_slice. rewrite range_from_pure by (auto; lia). reflexivity. Qed.

Lemma MaximumTemperature_mem_eq h s :
  slice_valid h s →
  MaximumTemperature_mem s h = Ok (MaximumTemperature (slice_contents h s), h).
Proof. apply range_slice_pure. Qed.

Lemma MinimumTemperature_mem_eq h s :
  slice_valid h s →
  MinimumTemperature_mem s h = Ok (MinimumTemperature (slice_contents h s), h).
Proof. apply range_slice_pure. Qed.

Lemma AverageTemperature_mem_eq h s :
  slice_valid h s →
  AverageTemperature_mem s h = Ok (AverageTemperature (slice_contents h s), h).
Proof.
  intros Hv. unfold AverageTemperature_mem, mem_bind.
  rewrite range_slice_pure by exact Hv. unfold mem_ret, AverageTemperature.
  rewrite slice_valid_length by exact Hv. reflexivity.
Qed.

Lemma AverageHumidity_mem_eq h s :
  slice_valid h s →
  AverageHumidity_mem s h = Ok (AverageHumidity (slice_contents h s), h).
Proof.
  intros Hv. unfold AverageHumidity_mem, mem_bind.
  rewrite range_slice_pure by exact Hv. unfold mem_ret, AverageHumidity.
  rewrite slice_valid_length by exact Hv. reflexivity.
Qed.

(** [append] writes one array: the slice's own, or a new one. *)
Lemma slice_append_spec h s w :
  slice_valid h s →
  ∃ s' a' arr',
    slice_append growcap s w h = Ok (s', <[a' := arr']> h) ∧
    s_arr s' = Some a' ∧
    (s_arr s = Some a' ∨ a' ∉ dom h) ∧
    slice_valid (<[a' := arr']> h) s' ∧
    slice_contents (<[a' := arr']> h) s' = slice_contents h s ++ [w].
Proof.
  intros Hv. pose proof (slice_valid_length h s Hv) as Hlen.
  unfold slice_append. unfold slice_valid in Hv. destruct (s_arr s) as [a|] eqn:Ea.
  - destruct Hv as (arr & Harr & Hcap & Hle).
    destruct (s_len s <? s_cap s)%nat eqn:Hlt.
    + apply Nat.ltb_lt in Hlt. eexists _, a, _. split; [reflexivity|].
      split; [reflexivity|]. split; [left; reflexivity|].
      rewrite Harr. simpl. split.
      * unfold slice_valid; simpl. eexists. rewrite lookup_insert_eq.
        split; [reflexivity|]. rewrite length_insert. lia.
      * unfold slice_contents; simpl. rewrite Ea, lookup_insert_eq, Harr. simpl.
        rewrite drop_insert_ge by lia.
        replace (s_off s + s_len s - s_off s)%nat with (s_len s) by lia.
        rewrite (take_S_r _ _ w), take_insert_ge by
          (try lia; apply list_lookup_insert_eq; rewrite length_drop; lia).
        reflexivity.
    + apply Nat.ltb_ge in Hlt. eexists _, (fresh (dom h)), _.
      split; [reflexivity|]. split; [reflexivity|]. split; [right; apply is_fresh|].
      split.
      * unfold slice_valid; simpl. eexists. rewrite lookup_insert_eq.
        split; [reflexivity|].
        rewrite length_app, Hlen. simpl. rewrite length_replicate. lia.
      * unfold slice_contents at 1; simpl. rewrite lookup_insert_eq. simpl.
        rewrite <- Hlen at 1.
        change (slice_contents h s ++ w :: ?l) with (slice_contents h s ++ [w] ++ l).
        rewrite app_assoc. apply take_app_length'.
        rewrite length_app. simpl. lia.
  - destruct Hv as [Hl Hc]. eexists _, (fresh (dom h)), _.
    split; [reflexivity|]. split; [reflexivity|]. split; [right; apply is_fresh|].
    split.
    + unfold slice_valid; simpl. eexists. rewrite lookup_insert_eq.
      split; [reflexivity|]. simpl. rewrite length_replicate. lia.
    + unfold slice_contents; simpl. rewrite Ea, lookup_insert_eq. reflexivity.
Qed.

(** Slices on other arrays do not see the write. *)
Lemma slice_contents_frame h s (a : positive) (arr : list Weather) :
  s_arr s ≠ Some a → slice_contents (<[a := arr]> h) s = slice_contents h s.
Proof.
  intros Hne. unfold slice_contents. destruct (s_arr s) as [b|]; [|reflexivity].
  rewrite lookup_insert_ne by congruence. reflexivity.
Qed.

Lemma slice_valid_frame h s (a : positive) (arr : list Weather) :
  s_arr s ≠ Some a → slice_valid h s → slice_valid (<[a := arr]> h) s.
Proof.
  intros Hne. unfold slice_valid. destruct (s_arr s) as [b|]; [|auto].
  rewrite lookup_insert_ne by congruence. auto.
Qed.

Lemma slice_valid_dom h s (a : positive) : slice_valid h s → s_arr s = Some a → a ∈ dom h.
Proof.
  unfold slice_valid. intros Hv E. rewrite E in Hv. destruct Hv as (arr & Harr & _).
  apply elem_of_dom. eauto.
Qed.

(** Two stores that agree on the array of a slice show the same slice. *)
Lemma slice_contents_agree h h' s :
  (∀ a, s_arr s = Some a → h' !! a = h !! a) →
  slice_contents h' s = slice_contents h s.
Proof.
  intros H. unfold slice_contents. destruct (s_arr s) as [a|]; [|reflexivity].
  rewrite (H a eq_refl). reflexivity.
Qed.

Lemma slice_valid_agree h h' s :
  (∀ a, s_arr s = Some a → h' !! a = h !! a) → slice_valid h s → slice_valid h' s.
Proof.
  intros H. unfold slice_valid. destruct (s_arr s) as [a|]; [|auto].
  rewrite (H a eq_refl). auto.
Qed.

End MemoryProperties.

Section DailyInMemory.
Context {tm : TimeAPI}.
Context (growcap : nat → nat).

Implicit Types (h : gmap positive (list Weather)) (s f : slice) (w : Weather).

Lemma group_rel_init h0 : group_rel h0 [] grouping_mem_init h0.
Proof.
  split; [auto|]. split; [reflexivity|]. split; [reflexivity|]. split.
  - intros k. simpl. rewrite lookup_empty. reflexivity.
  - intros k1 k2 s1 s2 _ H. simpl in H. rewrite lookup_empty in H. discriminate H.
Qed.

Lemma group_rel_dom h0 p g h : group_rel h0 p g h → dom h0 ⊆ dom h.
Proof.
  intros (Hf & _) a Ha. pose proof (Hf a Ha) as E.
  apply elem_of_dom in Ha as [arr Harr]. apply elem_of_dom. exists arr. congruence.
Qed.

Lemma group_step_mem_rel h0 p g h w :
  group_rel h0 p g h →
  ∃ g' h', group_step_mem growcap g w h = Ok (g', h') ∧ group_rel h0 (p ++ [w]) g' h'.
Proof.
  intros Hrel. pose proof (group_rel_dom _ _ _ _ Hrel) as Hdom.
  destruct Hrel as (Hf & Hk & Hl & Hb & Hd).
  set (key := Time_Format (Date w) day_layout).
  set (s := default slice_nil (m_days g !! key)).
  assert (Hs : slice_valid h s ∧ (∀ a, s_arr s = Some a → a ∉ dom h0) ∧
               slice_contents h s = default [] (days (group p) !! key)).
  { unfold s. specialize (Hb key). destruct (m_days g !! key) as [s0|]; simpl.
    - destruct Hb as ((a & Ea & Ha) & Hv & ->). split; [exact Hv|]. split; [|reflexivity].
      intros a' Ea'. congruence.
    - rewrite Hb. split; [split; reflexivity|]. split; [intros a Ea; discriminate Ea|reflexivity]. }
  destruct Hs as (Hv & Hown & Hc).
  destruct (slice_append_spec growcap h s w Hv) as (s' & a' & arr' & Happ & Ea' & Hwhere & Hv' & Hc').
  assert (Ha' : a' ∉ dom h0).
  { destruct Hwhere as [E|Hfresh]; [apply Hown, E|]. intros Hin. apply Hfresh, Hdom, Hin. }
  assert (Hother : ∀ k t, k ≠ key → m_days g !! k = Some t → s_arr t ≠ Some a').
  { intros k t Hne Ht Et. destruct Hwhere as [E|Hfresh].
    - unfold s in E. destruct (m_days g !! key) as [s0|] eqn:Es0; simpl in E; [|discriminate E].
      apply (Hd k key t s0 Hne Ht Es0). congruence.
    - apply Hfresh. specialize (Hb k). rewrite Ht in Hb. destruct Hb as (_ & Hvt & _).
      exact (slice_valid_dom h t a' Hvt Et). }
  eexists _, _. split.
  { unfold group_step_mem, mem_bind. fold key. fold s. rewrite Happ. reflexivity. }
  unfold group_rel. rewrite group_snoc. unfold group_step. fold key.
  split; [|split; [|split; [|split]]]; simpl.
  - intros a Ha. rewrite lookup_insert_ne by (intros ->; contradiction). apply Hf, Ha.
  - rewrite Hk. specialize (Hb key).
    destruct (m_days g !! key) as [s0|]; [destruct Hb as (_ & _ & ->)|rewrite Hb]; reflexivity.
  - rewrite Hl. reflexivity.
  - intros k. destruct (decide (k = key)) as [->|Hne].
    + rewrite !lookup_insert_eq. split; [eauto|]. split; [exact Hv'|].
      rewrite Hc', Hc. reflexivity.
    + rewrite !lookup_insert_ne by congruence. specialize (Hb k).
      destruct (m_days g !! k) as [t|] eqn:Et; [|exact Hb].
      destruct Hb as (Hown_t & Hvt & Hct). pose proof (Hother k t Hne Et) as Hna.
      split; [exact Hown_t|]. split; [apply slice_valid_frame; assumption|].
      rewrite slice_contents_frame by exact Hna. exact Hct.
  - intros k1 k2 s1 s2 Hne H1 H2.
    destruct (decide (k1 = key)) as [->|Hne1]; destruct (decide (k2 = key)) as [->|Hne2];
      try congruence.
    + rewrite lookup_insert_eq in H1. rewrite lookup_insert_ne in H2 by congruence.
      injection H1 as <-. rewrite Ea'. intros E. apply (Hother k2 s2 Hne2 H2). congruence.
    + rewrite lookup_insert_eq in H2. rewrite lookup_insert_ne in H1 by congruence.
      injection H2 as <-. rewrite Ea'. apply (Hother k1 s1 Hne1 H1).
    + rewrite lookup_insert_ne in H1 by congruence.
      rewrite lookup_insert_ne in H2 by congruence. exact (Hd k1 k2 s1 s2 Hne H1 H2).
Qed.

Lemma group_loop_mem h0 f (n i : nat) g h :
  slice_valid h0 f → (i + n)%nat = s_len f →
  group_rel h0 (take i (slice_contents h0 f)) g h →
  ∃ g' h', range_from f (group_step_mem growcap) i n g h = Ok (g', h') ∧
           group_rel h0 (slice_contents h0 f) g' h'.
Proof.
  intros Hv. revert i g h. induction n as [|n IH]; intros i g h Hi Hrel; simpl.
  - exists g, h. split; [reflexivity|].
    rewrite take_ge in Hrel by (rewrite slice_valid_length by exact Hv; lia). exact Hrel.
  - destruct (lookup_lt_is_Some_2 (slice_contents h0 f) i) as [w Hw];
      [rewrite slice_valid_length by exact Hv; lia|].
    assert (Hget : slice_get f i h = Ok (w, h)).
    { apply slice_get_contents. rewrite <- Hw. f_equal. apply slice_contents_agree.
      intros a Ea. apply Hrel. exact (slice_valid_dom h0 f a Hv Ea). }
    destruct (group_step_mem_rel h0 _ g h w Hrel) as (g1 & h1 & Hstep & Hrel1).
    rewrite <- (take_S_r _ _ _ Hw) in Hrel1.
    destruct (IH (S i) g1 h1) as (g' & h' & Hloop & Hrel'); [lia|exact Hrel1|].
    exists g', h'. split; [|exact Hrel'].
    unfold mem_bind at 1. rewrite Hget. unfold mem_bind at 1. rewrite Hstep. exact Hloop.
Qed.

(** The second loop: it reads the buckets and writes only arrays that the
    first loop's store [h1] does not have. *)
Lemma range_keys_mem h0 (p : Forecast) g h1 (l : time_Location) (ks : list string) :
  group_rel h0 p g h1 → (ks ≠ [] → loc (group p) = Some l) →
  ∀ out h (acc : Forecast),
    (∀ a, a ∈ dom h1 → h !! a = h1 !! a) →
    (∃ a, s_arr out = Some a ∧ a ∉ dom h1) → slice_valid h out →
    slice_contents h out = acc →
    ∃ out' h',
      range_keys growcap g ks out h = Ok (out', h') ∧
      (∀ a, a ∈ dom h1 → h' !! a = h1 !! a) ∧
      (∃ a, s_arr out' = Some a ∧ a ∉ dom h1) ∧
      range_append (summarize (group p)) ks acc = Ok (slice_contents h' out').
Proof.
  intros Hrel. destruct Hrel as (_ & _ & Hl & Hb & _).
  induction ks as [|k ks IH]; intros Hloc out h acc Hf Hown Hv Hc; simpl.
  - exists out, h. rewrite Hc. auto.
  - specialize (Hloc ltac:(discriminate)).
    set (hourly := default slice_nil (m_days g !! k)).
    assert (Hh : slice_valid h hourly ∧
                 slice_contents h hourly = default [] (days (group p) !! k)).
    { unfold hourly. specialize (Hb k). destruct (m_days g !! k) as [t|]; simpl.
      - destruct Hb as (_ & Hvt & ->).
        assert (Hag : ∀ a, s_arr t = Some a → h !! a = h1 !! a)
          by (intros a Ea; apply Hf; exact (slice_valid_dom h1 t a Hvt Ea)).
        split; [eapply slice_valid_agree; eassumption|].
        simpl. apply slice_contents_agree, Hag.
      - rewrite Hb. split; [split; reflexivity|reflexivity]. }
    destruct Hh as (Hvh & Hch).
    set (sm := {| Date := fst (time_ParseInLocation day_layout k l);
                  Humidity := AverageHumidity (default [] (days (group p) !! k));
                  Temperature := AverageTemperature (default [] (days (group p) !! k));
                  TemperatureMin := MinimumTemperature (default [] (days (group p) !! k));
                  TemperatureMax := MaximumTemperature (default [] (days (group p) !! k)) |}).
    destruct (slice_append_spec growcap h out sm Hv)
      as (out1 & a1 & arr1 & Happ & Ea1 & Hwhere & Hv1 & Hc1).
    assert (Hdom : dom h1 ⊆ dom h).
    { intros a Ha. pose proof (Hf a Ha) as E. apply elem_of_dom in Ha as [arr Harr].
      apply elem_of_dom. exists arr. congruence. }
    assert (Ha1 : a1 ∉ dom h1).
    { destruct Hown as (a & Ea & Ha). destruct Hwhere as [E|Hfresh]; [congruence|].
      intros Hin. apply Hfresh, Hdom, Hin. }
    destruct (IH ltac:(intros _; exact Hloc) out1 (<[a1 := arr1]> h) (acc ++ [sm]))
      as (out' & h' & Hloop & Hf' & Hown' & Hres); [| |exact Hv1|congruence|].
    { intros a Ha. rewrite lookup_insert_ne by (intros ->; contradiction). apply Hf, Ha. }
    { exists a1. auto. }
    exists out', h'. split; [|split; [exact Hf'|split; [exact Hown'|]]].
    + unfold mem_bind at 1. unfold summarize_mem. fold hourly. rewrite Hl, Hloc. simpl.
      unfold mem_bind, mem_lift. cbv beta iota.
      rewrite (AverageHumidity_mem_eq h hourly Hvh), (AverageTemperature_mem_eq h hourly Hvh),
        (MinimumTemperature_mem_eq h hourly Hvh), (MaximumTemperature_mem_eq h hourly Hvh).
      rewrite Hch. fold sm. rewrite Happ. exact Hloop.
    + rewrite (summarize_Some (group p) l k Hloc). simpl. fold sm. exact Hres.
Qed.

(** C9: run on a slice [f] of a store [h0], [Daily] returns without a
    panic; every array of [h0], the one behind [f] in particular, is in
    the final store as it was, so [f] shows the same observations; the
    slice returned lies on an array that [h0] does not have; and it holds
    the summaries that [Daily] computes from the observations of [f]. *)
Theorem Daily_mem_leaves_input h0 f :
  slice_valid h0 f →
  ∃ r h' ds,
    Daily_mem growcap f h0 = Ok (r, h') ∧
    (∀ a, a ∈ dom h0 → h' !! a = h0 !! a) ∧
    slice_contents h' f = slice_contents h0 f ∧
    (∃ a, s_arr r = Some a ∧ a ∉ dom h0) ∧
    Daily (slice_contents h0 f) = Ok ds ∧
    slice_contents h' r = ds.
Proof.
  intros Hv. set (cs := slice_contents h0 f).
  destruct (group_loop_mem h0 f (s_len f) 0 grouping_mem_init h0 Hv eq_refl)
    as (g & h1 & Hloop & Hrel); [apply group_rel_init|]. fold cs in Hrel.
  pose proof (group_rel_dom _ _ _ _ Hrel) as Hdom1.
  pose proof Hrel as (Hf1 & Hk & Hl & _).
  set (a0 := fresh (dom h1)).
  set (out := {| s_arr := Some a0; s_off := 0; s_len := 0; s_cap := size (m_days g) |}).
  set (h2 := <[a0 := replicate (size (m_days g)) Weather_zero]> h1).
  assert (Hfr : a0 ∉ dom h1) by apply is_fresh.
  destruct (range_keys_mem h0 cs g h1
              (default (Time_Location (Date Weather_zero)) (loc (group cs)))
              (sort_Strings (m_keys g)) Hrel) with (out := out) (h := h2) (acc := @nil Weather)
    as (r & h' & Hkeys & Hf' & (a & Ea & Ha) & Hres).
  - intros Hne. rewrite group_loc. destruct cs as [|w0 cs']; [|reflexivity].
    exfalso. apply Hne. rewrite Hk. reflexivity.
  - intros a Ha. unfold h2. rewrite lookup_insert_ne by (intros ->; contradiction). reflexivity.
  - exists a0. auto.
  - unfold slice_valid, out, h2; simpl. eexists. rewrite lookup_insert_eq.
    split; [reflexivity|]. rewrite length_replicate. lia.
  - reflexivity.
  - assert (Hfinal : ∀ b, b ∈ dom h0 → h' !! b = h0 !! b).
    { intros b Hb. rewrite Hf' by apply Hdom1, Hb. apply Hf1, Hb. }
    exists r, h', (slice_contents h' r).
    split; [|split; [exact Hfinal|split; [|split; [|split; [|reflexivity]]]]].
    + unfold Daily_mem, mem_bind. unfold range_slice. rewrite Hloop.
      unfold slice_make. fold a0. fold out. fold h2. exact Hkeys.
    + apply slice_contents_agree. intros b Eb. apply Hfinal.
      exact (slice_valid_dom h0 f b Hv Eb).
    + exists a. split; [exact Ea|]. intros Hin. apply Ha, Hdom1, Hin.
    + unfold Daily. fold cs. rewrite <- Hk. exact Hres.
Qed.

End DailyInMemory.

(** ** The calendar of the executable [time] instance *)

Section Calendar.
Import CivilTime.

Lemma all_from_spec (n : nat) (z0 : Z) (p : Z → bool) :
  all_from n z0 p = true → ∀ z, z0 <= z < z0 + Z.of_nat n → p z = true.
Proof.
  revert z0. induction n as [|n IH]; intros z0 H z Hz; [lia|].
  simpl in H. apply andb_prop in H as [H1 H2].
  destruct (Z.eq_dec z z0) as [->|Hne]; [exact H1|].
  apply (IH (z0 + 1)); [exact H2|lia].
Qed.

(** The three finite checks, by evaluation. *)
Lemma era_days_ok : all_from (Z.to_nat 146097) 0 era_day_ok = true.
Proof. vm_compute. reflexivity. Qed.

Lemma four_digits_all_ok : all_from (Z.to_nat 10000) 0 four_digits_ok = true.
Proof. vm_compute. reflexivity. Qed.

Lemma two_digits_all_ok : all_from (Z.to_nat 100) 0 two_digits_ok = true.
Proof. vm_compute. reflexivity. Qed.

Ltac Zify.zify_post_hook ::= Z.to_euclidean_division_equations.

(** Dates repeat every 400 years, that is every 146097 days. *)
Lemma civil_shift (z e : Z) :
  civil_from_days (z + e * 146097) =
  let '(y, m, d) := civil_from_days z in (y + 400 * e, m, d).
Proof.
  unfold civil_from_days.
  replace ((z + e * 146097 + 719468) / 146097) with ((z + 719468) / 146097 + e) by lia.
  replace (z + e * 146097 + 719468 - ((z + 719468) / 146097 + e) * 146097)
    with (z + 719468 - (z + 719468) / 146097 * 146097) by lia.
  set (doe := z + 719468 - (z + 719468) / 146097 * 146097).
  set (yoe := (doe - doe / 1460 + doe / 36524 - doe / 146096) / 365).
  set (doy := doe - (365 * yoe + yoe / 4 - yoe / 100)).
  set (mp := (5 * doy + 2) / 153).
  destruct (mp <? 10); [destruct (mp + 3 <=? 2)|destruct (mp - 9 <=? 2)];
    f_equal; f_equal; lia.
Qed.

Lemma days_from_civil_era (y m d e : Z) :
  days_from_civil (y + 400 * e) m d = days_from_civil y m d + e * 146097.
Proof. unfold days_from_civil. destruct (m <=? 2), (2 <? m); lia. Qed.

Lemma daysIn_era (y m e : Z) : daysIn m (y + 400 * e) = daysIn m y.
Proof.
  unfold daysIn, isLeap.
  replace ((y + 400 * e) mod 4) with (y mod 4) by lia.
  replace ((y + 400 * e) mod 100) with (y mod 100) by lia.
  replace ((y + 400 * e) mod 400) with (y mod 400) by lia.
  reflexivity.
Qed.

(** Every day number is a date of the calendar, and converts back. *)
Lemma civil_from_days_valid (z : Z) :
  let '(y, m, d) := civil_from_days z in
  1 <= m <= 12 ∧ 1 <= d <= daysIn m y ∧ days_from_civil y m d = z.
Proof.
  set (e := (z + 719468) / 146097). set (doe := (z + 719468) mod 146097).
  assert (Hz : z = doe - 719468 + e * 146097) by (unfold e, doe; lia).
  assert (Hd : 0 <= doe < 146097) by (unfold doe; lia).
  rewrite Hz. rewrite civil_shift.
  pose proof (all_from_spec _ _ _ era_days_ok doe ltac:(lia)) as Hok.
  unfold era_day_ok in Hok.
  destruct (civil_from_days (doe - 719468)) as [[y m] d].
  rewrite !andb_true_iff in Hok. destruct Hok as (((((H1 & H2) & H3) & H4) & H5) & _).
  rewrite daysIn_era, days_from_civil_era.
  apply Z.leb_le in H1, H2, H3, H4. apply Z.eqb_eq in H5. lia.
Qed.

Lemma daysIn_le_31 (m y : Z) : daysIn m y <= 31.
Proof.
  unfold daysIn. destruct (m =? 2); [destruct (isLeap y); lia|].
  destruct ((m =? 4) || (m =? 6) || (m =? 9) || (m =? 11)); lia.
Qed.

Lemma appendInt_4 (n : Z) (rest : string) :
  0 <= n <= 9999 →
  getnum 4 (appendInt n 4 +:+ rest) 0 = Some (n, rest).
Proof.
  intros Hn. pose proof (all_from_spec _ _ _ four_digits_all_ok n ltac:(lia)) as Hok.
  unfold four_digits_ok in Hok.
  destruct (appendInt n 4) as [|a [|b [|c [|d [|? ?]]]]]; try discriminate Hok.
  rewrite !andb_true_iff in Hok. destruct Hok as ((((Ha & Hb) & Hc) & Hd) & E).
  apply Z.eqb_eq in E. simpl. rewrite Ha, Hb, Hc, Hd, E. reflexivity.
Qed.

Lemma appendInt_2 (n : Z) (rest : string) :
  0 <= n <= 99 →
  getnum 2 (appendInt n 2 +:+ rest) 0 = Some (n, rest).
Proof.
  intros Hn. pose proof (all_from_spec _ _ _ two_digits_all_ok n ltac:(lia)) as Hok.
  unfold two_digits_ok in Hok.
  destruct (appendInt n 2) as [|a [|b [|? ?]]]; try discriminate Hok.
  rewrite !andb_true_iff in Hok. destruct Hok as ((Ha & Hb) & E).
  apply Z.eqb_eq in E. simpl. rewrite Ha, Hb, E. reflexivity.
Qed.

(** A date of a four-digit year, written under the day layout, parses. *)
Lemma parse_chunks_format (y m d : Z) :
  0 <= y <= 9999 → 1 <= m <= 12 → 1 <= d <= 31 →
  parse_chunks day_layout (format_chunks day_layout y m d)
               {| f_year := 0; f_month := 1; f_day := 1 |}
  = inl {| f_year := y; f_month := m; f_day := d |}.
Proof.
  intros Hy Hm Hd.
  change (format_chunks day_layout y m d)
    with (appendInt y 4 +:+ (appendInt m 2 +:+ (appendInt d 2 +:+ EmptyString))).
  unfold day_layout. cbn [parse_chunks].
  rewrite appendInt_4 by exact Hy. rewrite appendInt_2 by lia.
  replace ((m <=? 0) || (12 <? m)) with false by (symmetry; apply orb_false_iff; lia).
  rewrite appendInt_2 by lia. reflexivity.
Qed.

(** Within the years 0000 to 9999, the day key of a time parses, in any
    location, to midnight of that day there. *)
Lemma CivilTime_round_trip (t : Time) (l : Location) :
  0 <= Year t <= 9999 →
  let r := ParseInLocation day_layout (Format t day_layout) l in
  snd r = None ∧ location (fst r) = l ∧
  Format (fst r) day_layout = Format t day_layout ∧ Clock (fst r) = (0, 0, 0) ∧
  unix (fst r) = day_number t * 86400 - zone_offset l.
Proof.
  unfold Year, Format, ParseInLocation, civil, day_number. intros Hy.
  pose proof (civil_from_days_valid ((unix t + zone_offset (location t)) / 86400)) as Hv.
  destruct (civil_from_days ((unix t + zone_offset (location t)) / 86400))
    as [[y m] d] eqn:Ec.
  simpl in Hy. destruct Hv as (Hm & Hd & Hback).
  pose proof (daysIn_le_31 m y) as H31.
  rewrite parse_chunks_format by lia. cbn [f_day f_month f_year].
  replace ((d <? 1) || (daysIn m y <? d)) with false by (symmetry; apply orb_false_iff; lia).
  cbn [fst snd]. split; [reflexivity|]. split; [reflexivity|].
  unfold Date, Clock. cbn [unix location zone_offset].
  replace (days_from_civil y m d * 86400 + 0 * 3600 + 0 * 60 + 0 - zone_offset l + zone_offset l)
    with (days_from_civil y m d * 86400) by lia.
  rewrite Z.div_mul, Z.mod_mul by lia. rewrite Hback, Ec.
  split; [reflexivity|]. split; [reflexivity|]. lia.
Qed.

(** The next day has the greater date. *)
Lemma date_code_step (z : Z) :
  date_code (civil_from_days z) < date_code (civil_from_days (z + 1)).
Proof.
  set (e := (z + 719468) / 146097). set (doe := (z + 719468) mod 146097).
  assert (Hz : z = doe - 719468 + e * 146097) by (unfold e, doe; lia).
  assert (Hd : 0 <= doe < 146097) by (unfold doe; lia).
  pose proof (all_from_spec _ _ _ era_days_ok doe ltac:(lia)) as Hok.
  unfold era_day_ok in Hok.
  replace (z + 1) with (doe + 1 - 719468 + e * 146097) by lia.
  rewrite Hz, !civil_shift.
  destruct (civil_from_days (doe - 719468)) as [[y m] d].
  apply andb_prop in Hok as [_ Hok]. apply Z.ltb_lt in Hok.
  destruct (civil_from_days (doe + 1 - 719468)) as [[y' m'] d'].
  unfold date_code in *. lia.
Qed.

Lemma date_code_mono (z z' : Z) :
  z <= z' → date_code (civil_from_days z) <= date_code (civil_from_days z').
Proof.
  intros Hle. replace z' with (z + Z.of_nat (Z.to_nat (z' - z))) by lia.
  induction (Z.to_nat (z' - z)) as [|n IH]; [rewrite Z.add_0_r; lia|].
  pose proof (date_code_step (z + Z.of_nat n)) as Hs.
  replace (z + Z.of_nat (S n)) with (z + Z.of_nat n + 1) by lia. lia.
Qed.

Lemma digit_val_range (a : ascii) : isDigit a = true → 0 <= digit_val a <= 9.
Proof.
  unfold isDigit, digit_val. intros [H1 H2]%andb_prop.
  apply Nat.leb_le in H1, H2. lia.
Qed.

Lemma Ascii_compare_digit_val (a b : ascii) :
  Ascii.compare a b = (digit_val a ?= digit_val b).
Proof.
  unfold Ascii.compare, digit_val, nat_of_ascii.
  rewrite !N_nat_Z, <- N2Z.inj_compare.
  destruct (Z.compare_spec (Z.of_N (N_of_ascii a)) (Z.of_N (N_of_ascii b)));
    destruct (Z.compare_spec (Z.of_N (N_of_ascii a) - 48) (Z.of_N (N_of_ascii b) - 48));
    try reflexivity; lia.
Qed.

Lemma dec_value_bound (s : string) :
  all_digits s = true → 0 <= dec_value s < 10 ^ Z.of_nat (String.length s).
Proof.
  induction s as [|a s IH]; simpl; [lia|]. intros [Ha Hs]%andb_prop.
  specialize (IH Hs). pose proof (digit_val_range a Ha) as Hr.
  rewrite Nat2Z.inj_succ, Z.pow_succ_r by lia. nia.
Qed.

(** Digit strings of one length compare as the numbers they write. *)
Lemma dec_value_compare (s s' : string) :
  all_digits s = true → all_digits s' = true → String.length s = String.length s' →
  (s ?= s')%string = (dec_value s ?= dec_value s').
Proof.
  revert s'. induction s as [|a s IH]; intros [|b s']; simpl; try discriminate; [reflexivity|].
  intros [Ha Hs]%andb_prop [Hb Hs']%andb_prop [= Hlen].
  rewrite Ascii_compare_digit_val. specialize (IH s' Hs Hs' Hlen).
  pose proof (dec_value_bound s Hs) as B. pose proof (dec_value_bound s' Hs') as B'.
  rewrite <- Hlen in *. set (P := 10 ^ Z.of_nat (String.length s)) in *.
  destruct (Z.compare_spec (digit_val a) (digit_val b)) as [E|E|E].
  - rewrite IH, E. destruct (Z.compare_spec (dec_value s) (dec_value s')) as [E'|E'|E'];
      symmetry; [apply Z.compare_eq_iff|apply Z.compare_lt_iff|apply Z.compare_gt_iff]; lia.
  - symmetry. apply Z.compare_lt_iff. nia.
  - symmetry. apply Z.compare_gt_iff. nia.
Qed.

(** The day key of a date of a four-digit year: eight digits that write
    the date code. *)
Lemma format_digits (y m d : Z) :
  0 <= y <= 9999 → 1 <= m <= 12 → 1 <= d <= 31 →
  let k := format_chunks day_layout y m d in
  all_digits k = true ∧ String.length k = 8%nat ∧ dec_value k = date_code (y, m, d).
Proof.
  intros Hy Hm Hd.
  change (format_chunks day_layout y m d)
    with (appendInt y 4 +:+ (appendInt m 2 +:+ (appendInt d 2 +:+ EmptyString))).
  pose proof (all_from_spec _ _ _ four_digits_all_ok y ltac:(lia)) as Hy4.
  pose proof (all_from_spec _ _ _ two_digits_all_ok m ltac:(lia)) as Hm2.
  pose proof (all_from_spec _ _ _ two_digits_all_ok d ltac:(lia)) as Hd2.
  unfold four_digits_ok in Hy4. unfold two_digits_ok in Hm2, Hd2.
  destruct (appendInt y 4) as [|a1 [|a2 [|a3 [|a4 [|? ?]]]]]; try discriminate Hy4.
  destruct (appendInt m 2) as [|b1 [|b2 [|? ?]]]; try discriminate Hm2.
  destruct (appendInt d 2) as [|c1 [|c2 [|? ?]]]; try discriminate Hd2.
  rewrite !andb_true_iff in Hy4. rewrite !andb_true_iff in Hm2.
  rewrite !andb_true_iff in Hd2.
  destruct Hy4 as ((((A1 & A2) & A3) & A4) & Ey).
  destruct Hm2 as ((B1 & B2) & Em). destruct Hd2 as ((C1 & C2) & Ed).
  apply Z.eqb_eq in Ey, Em, Ed. cbv zeta. cbv [String.append].
  cbn [all_digits String.length dec_value].
  rewrite A1, A2, A3, A4, B1, B2, C1, C2. split; [reflexivity|]. split; [reflexivity|].
  unfold date_code. cbn [Z.of_nat Pos.of_succ_nat Pos.succ].
  change (10 ^ 7) with 10000000. change (10 ^ 6) with 1000000. change (10 ^ 5) with 100000.
  change (10 ^ 4) with 10000. change (10 ^ 3) with 1000. change (10 ^ 2) with 100.
  change (10 ^ 1) with 10. change (10 ^ 0) with 1. lia.
Qed.

(** Within the years 0000 to 9999 a day key that comes strictly before
    another belongs to an earlier day. *)
Lemma day_key_order (t t' : Time) :
  0 <= Year t <= 9999 → 0 <= Year t' <= 9999 →
  String.le (Format t day_layout) (Format t' day_layout) →
  Format t day_layout ≠ Format t' day_layout →
  day_number t < day_number t'.
Proof.
  unfold Year, Format, civil. fold (day_number t) (day_number t'). intros Hy Hy' Hle Hne.
  destruct (Z.lt_ge_cases (day_number t) (day_number t')) as [Hlt|Hge]; [exact Hlt|].
  exfalso. apply Hne.
  pose proof (date_code_mono _ _ Hge) as Hc.
  pose proof (civil_from_days_valid (day_number t)) as Hv.
  pose proof (civil_from_days_valid (day_number t')) as Hv'.
  destruct (civil_from_days (day_number t)) as [[y m] d].
  destruct (civil_from_days (day_number t')) as [[y' m'] d'].
  simpl in Hy, Hy'. destruct Hv as (Hm & Hd & _). destruct Hv' as (Hm' & Hd' & _).
  pose proof (daysIn_le_31 m y). pose proof (daysIn_le_31 m' y').
  destruct (format_digits y m d) as (D & L & V); [lia..|].
  destruct (format_digits y' m' d') as (D' & L' & V'); [lia..|].
  apply String.compare_eq_iff.
  unfold String.le, String.leb in Hle.
  rewrite dec_value_compare in * by congruence.
  rewrite V, V' in *.
  destruct (Z.compare_spec (date_code (y, m, d)) (date_code (y', m', d'))) as [E|E|E];
    [reflexivity|lia|contradiction].
Qed.

End Calendar.

(** ** Daily on the executable [time] instance

    The locations of this instance are fixed offsets.  For them, and for
    observations in the years 0000 to 9999, a day key parses back to
    midnight of its day, which is what the statements above ask of the
    [time] package; nothing here speaks of a zone with transitions. *)

Lemma years_round_trip (f : list (@Weather CivilTime.api)) :
  years_0000_9999 f → keys_round_trip f.
Proof.
  intros Hy w0 f' E. apply Forall_forall. intros k (w & Hw & <-)%day_keys_elem.
  destruct (CivilTime_round_trip (Date w) (Time_Location (Date w0)) (Hy w Hw))
    as (_ & Hl & Hf & _).
  split; [exact Hf|exact Hl].
Qed.

Lemma years_keys_midnight (w0 : @Weather CivilTime.api) (f : list (@Weather CivilTime.api))
    (k : string) :
  years_0000_9999 (w0 :: f) → k ∈ day_keys (w0 :: f) →
  midnight_of (fst (time_ParseInLocation day_layout k (Time_Location (Date w0)))) k
              (Time_Location (Date w0)).
Proof.
  intros Hy (w & Hw & <-)%day_keys_elem.
  destruct (CivilTime_round_trip (Date w) (Time_Location (Date w0)) (Hy w Hw))
    as (_ & Hl & Hf & Hc & _).
  unfold midnight_of. auto.
Qed.

Lemma Forall2_impl_elem {A B} (P Q : A → B → Prop) (l : list A) (k : list B) :
  Forall2 P l k → (∀ x y, x ∈ l → P x y → Q x y) → Forall2 Q l k.
Proof.
  intros H. induction H as [|x y l k Hxy H IH]; intros Himp; constructor.
  - apply Himp; [left|exact Hxy].
  - apply IH. intros x' y' Hx'. apply Himp. right. exact Hx'.
Qed.

Lemma StronglySorted_fmap_rel {A B} (R : relation A) (R' : relation B) (g : A → B)
    (l : list A) :
  (∀ a b, a ∈ l → b ∈ l → R a b → R' (g a) (g b)) →
  StronglySorted R l → StronglySorted R' (g <$> l).
Proof.
  intros H Hs. induction Hs as [|a l Hs IH Hall]; simpl; constructor.
  - apply IH. intros x y Hx Hy. apply H; right; assumption.
  - apply Forall_forall. intros b' (b & -> & Hb)%list_elem_of_fmap.
    rewrite Forall_forall in Hall. apply H; [left|right; exact Hb|apply Hall, Hb].
Qed.

(** With fixed offsets and years 0000 to 9999 the dates of the summaries
    are strictly ascending instants. *)
Lemma Daily_chronological_years (f : list (@Weather CivilTime.api)) :
  years_0000_9999 f → Daily_chronological f.
Proof.
  intros Hy. destruct f as [|w0 f'].
  { exists []. split; [reflexivity|constructor]. }
  set (f := w0 :: f') in *. set (l0 := Time_Location (Date w0)).
  exists (day_summary l0 f <$> day_keys f). split; [apply Daily_eq|].
  apply (StronglySorted_fmap_rel String_lt); [|apply day_keys_ascending].
  intros k1 k2 (w1 & Hw1 & <-)%day_keys_elem (w2 & Hw2 & <-)%day_keys_elem [Hle Hne].
  pose proof (Hy w1 Hw1) as Hy1. pose proof (Hy w2 Hw2) as Hy2.
  destruct (CivilTime_round_trip (Date w1) l0 Hy1) as (_ & _ & _ & _ & E1).
  destruct (CivilTime_round_trip (Date w2) l0 Hy2) as (_ & _ & _ & _ & E2).
  pose proof (day_key_order (Date w1) (Date w2) Hy1 Hy2 Hle Hne) as Hd.
  unfold day_summary; simpl. unfold day_key.
  change (CivilTime.unix (CivilTime.ParseInLocation day_layout
            (CivilTime.Format (Date w1) day_layout) l0).1 <
          CivilTime.unix (CivilTime.ParseInLocation day_layout
            (CivilTime.Format (Date w2) day_layout) l0).1).
  rewrite E1, E2. lia.
Qed.
(** ** The sample forecasts *)

Lemma GetCurrentWeather_Humidity_zero_witness :
  main_humidity (main Examples.decoded) = 55%float ∧
  Humidity (fst (@GetCurrentWeather CivilTime.api Examples.humid_server Examples.client "12345"))
  = F64.zero.
Proof.
  split; [reflexivity|].
  apply (@GetCurrentWeather_Humidity_zero CivilTime.api Examples.humid_server
           Examples.client "12345"). reflexivity.
Defined.

(** The spec's ordering example: input dated 01-03, 01-01, 01-02 comes out
    as 01-01, 01-02, 01-03. *)
Lemma Daily_three_days :
  (day_key <$> Examples.three_days) = ["20240103"; "20240101"; "20240102"] ∧
  fmap (M:=outcome) (fmap (M:=list) day_key) (Daily Examples.three_days)
  = Ok ["20240101"; "20240102"; "20240103"].
Proof. split; vm_compute; reflexivity. Qed.

(** The spec's aggregate examples: maxima 70, 75, 68 give 75; minima 50,
    48, 55 give 48; temperatures 60, 70, 65 give 65; humidities 40, 60, 50
    give 50. *)
Lemma Daily_one_day :
  fmap (M:=outcome)
       (fmap (M:=list) (fun s => (TemperatureMax s, TemperatureMin s, Temperature s, Humidity s)))
       (Daily Examples.one_day)
  = Ok [(75, 48, 65, 50)%float].
Proof. vm_compute. reflexivity. Qed.

(** Two zones: both summaries are dated at midnight in the zone of the
    first observation. *)
Lemma Daily_two_zones :
  fmap (M:=outcome)
       (fmap (M:=list)
             (fun s => (Time_Location (Date s), Time_Format (Date s) day_layout,
                        Time_Clock (Date s))))
       (Daily Examples.two_zones)
  = Ok [(Examples.EST, "20240101", (0, 0, 0)); (Examples.EST, "20240103", (0, 0, 0))].
Proof. vm_compute. reflexivity. Qed.

(** C1 fails where a bucket holds a NaN: no value is at least a NaN, so
    the summary's temperature-max (negative infinity here) is not the
    greatest of the members' values. *)
Lemma Daily_aggregates_fails_on_NaN : ¬ Daily_aggregates Examples.nan_day.
Proof.
  intros (ds & Hd & Hall).
  assert (Ek : day_keys Examples.nan_day = ["20240101"]) by (vm_compute; reflexivity).
  rewrite Ek in Hall.
  apply Forall2_cons_inv_l in Hall as (s & ds' & ((_ & Hle) & _) & _ & _).
  assert (Hin : nan ∈ TemperatureMax <$> bucket Examples.nan_day "20240101")
    by (vm_compute; left).
  apply Hle, le_no_NaN in Hin as [Hn _]. vm_compute in Hn. discriminate Hn.
Qed.

(** C2 fails where a key does not parse: the day of the year 999 comes
    first, dated 0999-01-01, and the day of the year 10000 second, dated
    with the zero time, which is earlier. *)
Lemma Daily_not_chronological_year_10000 : ¬ Daily_chronological Examples.years_999_10000.
Proof.
  intros (ds & Hd & Hs).
  assert (E : fmap (M:=outcome) (fmap (M:=list) (fun s => CivilTime.unix (Date s)))
                   (Daily Examples.years_999_10000)
              = Ok [-30641760000; -62135596800]) by (vm_compute; reflexivity).
  rewrite Hd in E. injection E as E.
  destruct ds as [|s1 [|s2 ds']]; try discriminate E. injection E as E1 E2 _.
  apply StronglySorted_inv in Hs as [_ Hall]. apply Forall_cons in Hall as [Hlt _].
  rewrite E1, E2 in Hlt. lia.
Qed.

(** C7 fails on days whose keys do not parse: the two days of the year
    10000 are both dated with the zero time, and summarising the result
    again merges them into one entry. *)
Lemma Daily_not_idempotent_year_10000 : ¬ Daily_idempotent Examples.year_10000.
Proof.
  intros (d & Hd & d' & Hd' & Hall).
  assert (E1 : length <$> Daily Examples.year_10000 = Ok 2%nat) by (vm_compute; reflexivity).
  assert (E2 : (Daily Examples.year_10000 ≫= fun d0 => length <$> Daily d0) = Ok 1%nat)
    by (vm_compute; reflexivity).
  rewrite Hd in E1, E2. injection E1 as E1.
  change (length <$> Daily d = Ok 1%nat) in E2. rewrite Hd' in E2. injection E2 as E2.
  apply Forall2_length in Hall. congruence.
Qed.

(** C8 fails on a day whose key does not parse: the summary of January 1
    of the year 10000 is dated with the zero time, whose day key is
    [00010101]. *)
Lemma Daily_date_year_10000 : ¬ Daily_dated_in_first_zone Examples.year_10000.
Proof.
  intros H. destruct (H _ _ eq_refl) as (ds & Hd & Hall).
  assert (Ek : day_keys Examples.year_10000 = ["100000101"; "100000102"])
    by (vm_compute; reflexivity).
  assert (E : fmap (M:=outcome) (fmap (M:=list) (fun s => Time_Format (Date s) day_layout))
                   (Daily Examples.year_10000)
              = Ok ["00010101"; "00010101"]) by (vm_compute; reflexivity).
  rewrite Hd in E. injection E as E. rewrite Ek in Hall.
  apply Forall2_cons_inv_l in Hall as (s & ds' & (_ & Hk & _) & _ & ->).
  injection E as E _. pose proof (eq_trans (eq_sym Hk) E) as X. discriminate X.
Qed.

Lemma Daily_idempotent_three_days : Daily_idempotent Examples.three_days.
Proof.
  apply Daily_idempotent_round_trip, years_round_trip.
  intros w Hw. repeat (apply elem_of_cons in Hw as [->|Hw]); [..|inversion Hw];
    split; apply Z.leb_le; vm_compute; reflexivity.
Defined.

Lemma Daily_midnight_two_zones : Daily_dated_in_first_zone Examples.two_zones.
Proof.
  intros w0 f' E. injection E as <- <-.
  destruct (Daily_dates_in_first_location
              (Examples.observation
                 {| CivilTime.unix := 1704169800; CivilTime.location := Examples.EST |}
                 60 50 70 40)
              [Examples.observation (Examples.at_utc 1704247200) 61 51 71 41])
    as (ds & Hd & HF).
  exists ds. split; [exact Hd|].
  apply (Forall2_impl_elem _ _ _ _ HF). intros k s Hk [_ Hm]. apply Hm.
  apply (years_keys_midnight _ [Examples.observation (Examples.at_utc 1704247200) 61 51 71 41]);
    [|exact Hk].
  intros w Hw. repeat (apply elem_of_cons in Hw as [->|Hw]); [..|inversion Hw];
    split; apply Z.leb_le; vm_compute; reflexivity.
Defined.

Lemma Daily_mem_leaves_window :
  ∃ r h' ds,
    Daily_mem Examples.doubling Examples.window Examples.store = Ok (r, h') ∧
    (∀ a, a ∈ dom Examples.store → h' !! a = Examples.store !! a) ∧
    slice_contents h' Examples.window = slice_contents Examples.store Examples.window ∧
    (∃ a, s_arr r = Some a ∧ a ∉ dom Examples.store) ∧
    Daily (slice_contents Examples.store Examples.window) = Ok ds ∧
    slice_contents h' r = ds.
Proof.
  apply Daily_mem_leaves_input.
  exists (Examples.three_days ++ Examples.one_day).
  split; [reflexivity|]. simpl. lia.
Defined.

(** ** The reducers on inputs of any kind *)

Section ReducersAnyInput.
Context {tm : TimeAPI}.

Lemma isNaN_true (x : float) : F64.isNaN x = true ↔ Prim2SF x = S754_nan.
Proof.
  pose proof (isNaN_false x) as [H1 H2]. destruct (F64.isNaN x).
  - split; [intros _|reflexivity].
    destruct (Prim2SF x) eqn:E; try reflexivity;
      exfalso; assert (true = false) as X by (apply H2; discriminate); discriminate X.
  - split; [discriminate|]. intros E. exfalso. apply H1; [reflexivity|exact E].
Qed.

Lemma max_step_NaN (acc : float) (w : Weather) :
  F64.isNaN (TemperatureMax w) = true → max_step acc w = acc.
Proof.
  intros Hn. rewrite max_step_unfold.
  destruct (F64.lt acc (TemperatureMax w)) eqn:E; [|reflexivity].
  apply lt_no_NaN in E as [_ E]. rewrite E in Hn. discriminate Hn.
Qed.

Lemma min_step_NaN (acc : float) (w : Weather) :
  F64.isNaN (TemperatureMin w) = true → min_step acc w = acc.
Proof.
  intros Hn. rewrite min_step_unfold.
  destruct (F64.lt (TemperatureMin w) acc) eqn:E; [|reflexivity].
  apply lt_no_NaN in E as [E _]. rewrite E in Hn. discriminate Hn.
Qed.

(** X1: [MaximumTemperature] and [MinimumTemperature] never return NaN,
    whatever the observations hold, NaN included. *)
Theorem extrema_never_NaN (f : Forecast) :
  F64.isNaN (MaximumTemperature f) = false ∧ F64.isNaN (MinimumTemperature f) = false.
Proof. split; [apply MaximumTemperature_no_NaN|apply MinimumTemperature_no_NaN]. Qed.

(** X2: the two extremum reducers skip the observations whose value is
    NaN: the result is that of the forecast without them. *)
Theorem extrema_skip_NaN (f : Forecast) :
  MaximumTemperature f =
    MaximumTemperature (filter (fun w => F64.isNaN (TemperatureMax w) = false) f) ∧
  MinimumTemperature f =
    MinimumTemperature (filter (fun w => F64.isNaN (TemperatureMin w) = false) f).
Proof.
  unfold MaximumTemperature, MinimumTemperature. split.
  - generalize F64.Inf_neg. induction f as [|w f IH]; intros acc; [reflexivity|].
    rewrite filter_cons. destruct (decide (F64.isNaN (TemperatureMax w) = false)) as [E|E].
    + simpl. apply IH.
    + simpl. rewrite max_step_NaN by (destruct (F64.isNaN (TemperatureMax w)); congruence).
      apply IH.
  - generalize F64.Inf_pos. induction f as [|w f IH]; intros acc; [reflexivity|].
    rewrite filter_cons. destruct (decide (F64.isNaN (TemperatureMin w) = false)) as [E|E].
    + simpl. apply IH.
    + simpl. rewrite min_step_NaN by (destruct (F64.isNaN (TemperatureMin w)); congruence).
      apply IH.
Qed.

Lemma max_loop_from (g : Forecast) (a : float) :
  F64.isNaN a = false →
  fold_left max_step g a =
  if F64.lt a (fold_left max_step g F64.Inf_neg) then fold_left max_step g F64.Inf_neg else a.
Proof.
  intros Ha. induction g as [|w g IH] using rev_ind.
  - simpl. destruct (F64.lt a F64.Inf_neg) eqn:E; [|reflexivity].
    apply lt_le, le_Inf_neg in E. exact E.
  - rewrite !fold_left_app. simpl. rewrite IH. clear IH.
    set (m := fold_left max_step g F64.Inf_neg).
    assert (Hm : F64.isNaN m = false) by apply MaximumTemperature_no_NaN.
    rewrite !max_step_unfold.
    destruct (F64.lt a m) eqn:Eam.
    + destruct (F64.lt m (TemperatureMax w)) eqn:Emw.
      * rewrite (lt_le_trans a m _ Eam (lt_le _ _ Emw)). reflexivity.
      * rewrite Eam. reflexivity.
    + pose proof (not_lt_le a m Ha Hm Eam) as Hle.
      destruct (F64.lt a (TemperatureMax w)) eqn:Eaw.
      * rewrite (le_lt_trans m a _ Hle Eaw), Eaw. reflexivity.
      * destruct (F64.lt m (TemperatureMax w)); [rewrite Eaw|rewrite Eam]; reflexivity.
Qed.

Lemma min_loop_from (g : Forecast) (a : float) :
  F64.isNaN a = false →
  fold_left min_step g a =
  if F64.lt (fold_left min_step g F64.Inf_pos) a then fold_left min_step g F64.Inf_pos else a.
Proof.
  intros Ha. induction g as [|w g IH] using rev_ind.
  - simpl. destruct (F64.lt F64.Inf_pos a) eqn:E; [|reflexivity].
    apply lt_le, Inf_pos_le in E. exact E.
  - rewrite !fold_left_app. simpl. rewrite IH. clear IH.
    set (m := fold_left min_step g F64.Inf_pos).
    assert (Hm : F64.isNaN m = false) by apply MinimumTemperature_no_NaN.
    rewrite !min_step_unfold.
    destruct (F64.lt m a) eqn:Ema.
    + destruct (F64.lt (TemperatureMin w) m) eqn:Ewm.
      * rewrite (le_lt_trans _ m a (lt_le _ _ Ewm) Ema). reflexivity.
      * rewrite Ema. reflexivity.
    + pose proof (not_lt_le m a Hm Ha Ema) as Hle.
      destruct (F64.lt (TemperatureMin w) a) eqn:Ewa.
      * rewrite (lt_le_trans _ a m Ewa Hle), Ewa. reflexivity.
      * destruct (F64.lt (TemperatureMin w) m); [rewrite Ewa|rewrite Ema]; reflexivity.
Qed.

(** X3: the extrema of a concatenation are the extrema of the two parts,
    combined by the comparison the loops use; this holds with NaN values
    in either part. *)
Theorem extrema_app (f g : Forecast) :
  MaximumTemperature (f ++ g) =
    (if F64.gt (MaximumTemperature g) (MaximumTemperature f)
     then MaximumTemperature g else MaximumTemperature f) ∧
  MinimumTemperature (f ++ g) =
    (if F64.lt (MinimumTemperature g) (MinimumTemperature f)
     then MinimumTemperature g else MinimumTemperature f).
Proof.
  split.
  - unfold MaximumTemperature at 1. rewrite fold_left_app.
    apply (max_loop_from g), MaximumTemperature_no_NaN.
  - unfold MinimumTemperature at 1. rewrite fold_left_app.
    apply (min_loop_from g), MinimumTemperature_no_NaN.
Qed.

Lemma add_NaN_l (a b : float) : F64.isNaN a = true → F64.isNaN (a + b)%float = true.
Proof.
  rewrite !isNaN_true, FloatAxioms.add_spec. intros ->. reflexivity.
Qed.

Lemma add_NaN_r (a b : float) : F64.isNaN b = true → F64.isNaN (a + b)%float = true.
Proof.
  rewrite !isNaN_true, FloatAxioms.add_spec. intros ->. destruct (Prim2SF a); reflexivity.
Qed.

Lemma div_NaN_l (a b : float) : F64.isNaN a = true → F64.isNaN (a / b)%float = true.
Proof.
  rewrite !isNaN_true, FloatAxioms.div_spec. intros ->. reflexivity.
Qed.

(** A sum that is NaN stays NaN, and a NaN term makes it so. *)
Lemma sum_NaN {A} (g : A → float) (l : list A) (acc : float) :
  F64.isNaN acc = true ∨ (∃ a, a ∈ l ∧ F64.isNaN (g a) = true) →
  F64.isNaN (fold_left (fun t a => (t + g a)%float) l acc) = true.
Proof.
  revert acc. induction l as [|a l IH]; intros acc [H|(a' & Ha & Hn)]; simpl.
  - exact H.
  - inversion Ha.
  - apply IH. left. apply add_NaN_l, H.
  - apply elem_of_cons in Ha as [->|Ha].
    + apply IH. left. apply add_NaN_r, Hn.
    + apply IH. right. exists a'. split; assumption.
Qed.

(** X4: on the empty forecast the two averages divide zero by zero: the
    result is NaN, not a panic and not zero. *)
Theorem averages_of_empty :
  F64.isNaN (AverageTemperature []) = true ∧ F64.isNaN (AverageHumidity []) = true.
Proof. split; vm_compute; reflexivity. Qed.

(** X5: one observation whose temperature (humidity) is NaN makes the
    average temperature (humidity) of the whole forecast NaN, while the
    extrema skip such values. *)
Theorem averages_NaN (f : Forecast) (w : Weather) :
  w ∈ f →
  (F64.isNaN (Temperature w) = true → F64.isNaN (AverageTemperature f) = true) ∧
  (F64.isNaN (Humidity w) = true → F64.isNaN (AverageHumidity f) = true).
Proof.
  intros Hw. split; intros Hn; apply div_NaN_l, sum_NaN; right; exists w; split; assumption.
Qed.

Lemma le_le_eq (a b : float) :
  F64.le a b = true → F64.le b a = true → F64.eq a b = true.
Proof.
  unfold F64.le, F64.eq. rewrite !FloatAxioms.leb_spec, FloatAxioms.eqb_spec.
  unfold SFleb, SFeqb. rewrite (SFcompare_antisym (Prim2SF a) (Prim2SF b)).
  destruct (SFcompare (Prim2SF a) (Prim2SF b)) as [[]|]; simpl; congruence.
Qed.

Lemma MaximumTemperature_le_Permutation (f g : Forecast) :
  f ≡ₚ g → F64.le (MaximumTemperature f) (MaximumTemperature g) = true.
Proof.
  intros Hp. unfold MaximumTemperature.
  destruct (max_loop f F64.Inf_neg eq_refl) as (Hn & [E|Hin] & _ & _);
    destruct (max_loop g F64.Inf_neg eq_refl) as (_ & _ & Hlo & Hup).
  - rewrite E at 1. exact Hlo.
  - apply list_elem_of_fmap in Hin as (w & E & Hw). rewrite E at 1.
    apply Hup; [rewrite <- Hp; exact Hw|]. rewrite <- E. exact Hn.
Qed.

Lemma MinimumTemperature_le_Permutation (f g : Forecast) :
  f ≡ₚ g → F64.le (MinimumTemperature f) (MinimumTemperature g) = true.
Proof.
  intros Hp. unfold MinimumTemperature.
  destruct (min_loop g F64.Inf_pos eq_refl) as (Hn & [E|Hin] & _ & _);
    destruct (min_loop f F64.Inf_pos eq_refl) as (_ & _ & Hhi & Hlow).
  - rewrite E. exact Hhi.
  - apply list_elem_of_fmap in Hin as (w & E & Hw). rewrite E.
    apply Hlow; [rewrite Hp; exact Hw|]. rewrite <- E. exact Hn.
Qed.

(** X6: the extrema do not depend on the order of the observations:
    two forecasts with the same observations have the same maximum and
    the same minimum under [==], NaN values or not. *)
Theorem extrema_Permutation (f g : Forecast) :
  f ≡ₚ g →
  F64.eq (MaximumTemperature f) (MaximumTemperature g) = true ∧
  F64.eq (MinimumTemperature f) (MinimumTemperature g) = true.
Proof.
  intros Hp. split; apply le_le_eq;
    try apply MaximumTemperature_le_Permutation;
    try apply MinimumTemperature_le_Permutation; try exact Hp; symmetry; exact Hp.
Qed.

(** X7: the averages do depend on the order: a sum that overflows in
    one order stays finite in another. *)
Theorem averages_depend_on_order :
  ∃ f g : Forecast,
    f ≡ₚ g ∧ F64.same (AverageTemperature f) (AverageTemperature g) = false.
Proof.
  set (w := fun t : float =>
              {| Date := time_zero; Temperature := t; TemperatureMin := t;
                 TemperatureMax := t; Humidity := F64.zero |}).
  exists [w 0x1p1023%float; w 0x1p1023%float; w (-0x1p1023)%float],
         [w 0x1p1023%float; w (-0x1p1023)%float; w 0x1p1023%float].
  split; [apply perm_skip, perm_swap|]. vm_compute. reflexivity.
Qed.

(** X8: a forecast of one observation: the averages are its temperature
    and humidity as float64 values ([==], or NaN for NaN); the extrema are
    its maximum and minimum, or the loop's initial value when that is NaN. *)
Theorem reducers_of_one (w : Weather) :
  F64.same (AverageTemperature [w]) (Temperature w) = true ∧
  F64.same (AverageHumidity [w]) (Humidity w) = true ∧
  MaximumTemperature [w] =
    (if F64.isNaN (TemperatureMax w) then F64.Inf_neg else TemperatureMax w) ∧
  MinimumTemperature [w] =
    (if F64.isNaN (TemperatureMin w) then F64.Inf_pos else TemperatureMin w).
Proof.
  split; [apply mean_singleton|]. split; [apply mean_singleton|]. split.
  - destruct (F64.isNaN (TemperatureMax w)) eqn:E; [|apply max_singleton, E].
    apply (max_step_NaN F64.Inf_neg w E).
  - destruct (F64.isNaN (TemperatureMin w)) eqn:E; [|apply min_singleton, E].
    apply (min_step_NaN F64.Inf_pos w E).
Qed.

End ReducersAnyInput.

(** ** More of Daily *)

Section DailyMore.
Context {tm : TimeAPI}.

(** On a forecast that is not empty and whose observations have their
    minimum below their maximum, the least minimum is below the greatest
    maximum. *)
Lemma Minimum_le_Maximum (f : Forecast) :
  f ≠ [] →
  (∀ w, w ∈ f → F64.le (TemperatureMin w) (TemperatureMax w) = true) →
  F64.le (MinimumTemperature f) (MaximumTemperature f) = true.
Proof.
  intros Hne Hle. destruct f as [|w f]; [congruence|].
  assert (Hw : w ∈ w :: f) by (apply elem_of_cons; left; reflexivity).
  destruct (le_no_NaN _ _ (Hle w Hw)) as [Nmin Nmax].
  destruct (min_loop (w :: f) F64.Inf_pos eq_refl) as (_ & _ & _ & Hmin).
  destruct (max_loop (w :: f) F64.Inf_neg eq_refl) as (_ & _ & _ & Hmax).
  eapply le_trans; [exact (Hmin w Hw Nmin)|].
  eapply le_trans; [exact (Hle w Hw)|exact (Hmax w Hw Nmax)].
Qed.

(** X9: when every observation has its minimum temperature at or below
    its maximum temperature, so has every summary of [Daily]. *)
Theorem Daily_keeps_min_le_max (f : Forecast) :
  (∀ w, w ∈ f → F64.le (TemperatureMin w) (TemperatureMax w) = true) →
  ∃ ds, Daily f = Ok ds ∧
        Forall (fun s => F64.le (TemperatureMin s) (TemperatureMax s) = true) ds.
Proof.
  intros Hle.
  destruct (Daily_summaries f
              (fun _ s => F64.le (TemperatureMin s) (TemperatureMax s) = true))
    as (ds & E & HF).
  - intros w0 f' k _ Hk. simpl. apply Minimum_le_Maximum.
    + apply day_keys_bucket, Hk.
    + intros w Hw. apply Hle. apply bucket_Permutation_fields in Hw as [Hw _]. exact Hw.
  - exists ds. split; [exact E|].
    eapply Forall2_Forall_r; [exact HF|]. apply Forall_forall. intros k _ s Hs. exact Hs.
Qed.

Lemma day_keys_nonempty_bucket (f : Forecast) (k : string) :
  k ∈ day_keys f ↔ bucket f k ≠ [].
Proof.
  split; [apply day_keys_bucket|]. intros Hne.
  unfold day_keys. rewrite sort_Strings_perm, elem_of_remove_dups.
  destruct (decide (k ∈ day_key <$> f)) as [Hin|Hout]; [exact Hin|].
  exfalso. apply Hne, bucket_nil_iff, Hout.
Qed.

Lemma day_keys_same_buckets (f g : Forecast) :
  (∀ k, bucket f k = [] ↔ bucket g k = []) → day_keys f = day_keys g.
Proof.
  intros Hb. apply (StronglySorted_unique String.le); try apply sort_Strings_sorted.
  apply NoDup_Permutation; try apply day_keys_NoDup.
  intros k. rewrite !day_keys_nonempty_bucket, Hb. reflexivity.
Qed.

(** X10: [Daily] reads a forecast only through the observations of each
    day, taken in input order, and the location of the first observation:
    two forecasts that agree on these have the same result, however their
    days interleave. *)
Theorem Daily_interleaving (f g : Forecast) :
  (fun w => Time_Location (Date w)) <$> head f =
  (fun w => Time_Location (Date w)) <$> head g →
  (∀ k, bucket f k = bucket g k) →
  Daily f = Daily g.
Proof.
  intros Hl Hb.
  assert (Hk : day_keys f = day_keys g)
    by (apply day_keys_same_buckets; intros k; rewrite Hb; reflexivity).
  destruct f as [|w0 f'], g as [|w1 g']; try discriminate Hl; [reflexivity|].
  injection Hl as Hl. rewrite !Daily_eq, Hk, Hl. f_equal.
  apply list_fmap_ext. intros _ k _. unfold day_summary. rewrite Hb. reflexivity.
Qed.

Lemma bucket_app (f g : Forecast) (k : string) :
  bucket (f ++ g) k = bucket f k ++ bucket g k.
Proof. unfold bucket. apply filter_app. Qed.

Lemma day_keys_app (f g : Forecast) :
  (∀ w w', w ∈ f → w' ∈ g → String_lt (day_key w) (day_key w')) →
  day_keys (f ++ g) = day_keys f ++ day_keys g.
Proof.
  intros Hlt.
  assert (Hcross : ∀ k k', k ∈ day_keys f → k' ∈ day_keys g → String_lt k k').
  { intros k k' (w & Hw & <-)%day_keys_elem (w' & Hw' & <-)%day_keys_elem.
    apply Hlt; assumption. }
  apply (StronglySorted_unique String.le).
  - apply sort_Strings_sorted.
  - apply StronglySorted_app_2; try apply sort_Strings_sorted.
    intros k k' Hk Hk'. apply (Hcross k k' Hk Hk').
  - apply NoDup_Permutation.
    + apply day_keys_NoDup.
    + apply NoDup_app. split; [apply day_keys_NoDup|]. split; [|apply day_keys_NoDup].
      intros k Hk Hk'. destruct (Hcross k k Hk Hk') as [_ Hne]. apply Hne. reflexivity.
    + intros k. rewrite elem_of_app, !day_keys_nonempty_bucket, bucket_app.
      destruct (bucket f k) as [|a b]; simpl.
      * split; [intros H; right; exact H|intros [H|H]; [congruence|exact H]].
      * split; [intros _; left; discriminate|intros _; discriminate].
Qed.

(** X11: when every day of [f] comes before every day of [g] in key order
    and the two start in the same location, [Daily] of the concatenation
    is the concatenation of the two results. *)
Theorem Daily_app_days (f g : Forecast) :
  (∀ wf wg, head f = Some wf → head g = Some wg →
            Time_Location (Date wf) = Time_Location (Date wg)) →
  (∀ w w', w ∈ f → w' ∈ g → String_lt (day_key w) (day_key w')) →
  ∃ df dg, Daily f = Ok df ∧ Daily g = Ok dg ∧ Daily (f ++ g) = Ok (df ++ dg).
Proof.
  intros Hl Hlt. pose proof (day_keys_app f g Hlt) as Hk.
  destruct f as [|w0 f'].
  { destruct g as [|w1 g']; [exists [], []; repeat split; apply Daily_nil|].
    eexists [], _. rewrite Daily_nil. split; [reflexivity|].
    split; apply Daily_eq. }
  destruct g as [|w1 g'].
  { eexists _, []. rewrite Daily_nil, !app_nil_r. split; [apply Daily_eq|].
    split; [reflexivity|apply Daily_eq]. }
  eexists _, _. split; [apply Daily_eq|]. split; [apply Daily_eq|].
  change ((w0 :: f') ++ w1 :: g') with (w0 :: (f' ++ w1 :: g')) at 1.
  rewrite Daily_eq. change (w0 :: (f' ++ w1 :: g')) with ((w0 :: f') ++ w1 :: g').
  rewrite Hk, fmap_app. f_equal. f_equal.
  - apply Forall_fmap_ext, Forall_forall. intros k Hk0.
    unfold day_summary. rewrite bucket_app.
    assert (E : bucket (w1 :: g') k = []).
    { destruct (bucket (w1 :: g') k) as [|w b] eqn:Eb; [reflexivity|]. exfalso.
      assert (Hw : w ∈ bucket (w1 :: g') k) by (rewrite Eb; apply elem_of_cons; left; reflexivity).
      apply bucket_Permutation_fields in Hw as [Hw Hkey].
      apply day_keys_elem in Hk0 as (w' & Hw' & Hkey').
      destruct (Hlt w' w Hw' Hw) as [_ Hne]. congruence. }
    rewrite E, app_nil_r. reflexivity.
  - rewrite <- (Hl w0 w1 eq_refl eq_refl).
    apply Forall_fmap_ext, Forall_forall. intros k Hk1.
    unfold day_summary. rewrite bucket_app.
    assert (E : bucket (w0 :: f') k = []).
    { destruct (bucket (w0 :: f') k) as [|w b] eqn:Eb; [reflexivity|]. exfalso.
      assert (Hw : w ∈ bucket (w0 :: f') k) by (rewrite Eb; apply elem_of_cons; left; reflexivity).
      apply bucket_Permutation_fields in Hw as [Hw Hkey].
      apply day_keys_elem in Hk1 as (w' & Hw' & Hkey').
      destruct (Hlt w w' Hw Hw') as [_ Hne]. congruence. }
    rewrite E. reflexivity.
Qed.

(** X12: [Daily] returns at most one summary per observation, and none
    exactly when the forecast is empty. *)
Theorem Daily_length_le (f : Forecast) :
  ∃ ds, Daily f = Ok ds ∧ (length ds ≤ length f)%nat ∧ (ds = [] ↔ f = []).
Proof.
  destruct f as [|w0 f']; [exists []; rewrite Daily_nil; repeat split; lia|].
  eexists. split; [apply Daily_eq|]. rewrite length_fmap. split.
  - rewrite <- (length_fmap day_key (w0 :: f')). apply submseteq_length, NoDup_submseteq.
    + apply day_keys_NoDup.
    + intros k (w & Hw & <-)%day_keys_elem. apply list_elem_of_fmap. exists w. auto.
  - split; [|discriminate]. intros E. exfalso.
    assert (Hk : day_key w0 ∈ day_keys (w0 :: f')).
    { apply day_keys_elem. exists w0. split; [apply elem_of_cons; left|]; reflexivity. }
    apply fmap_nil_inv in E. rewrite E in Hk. inversion Hk.
Qed.

Lemma Daily_Maximum_le (f ds : Forecast) :
  Daily f = Ok ds →
  F64.le (MaximumTemperature ds) (MaximumTemperature f) = true ∧
  F64.le (MaximumTemperature f) (MaximumTemperature ds) = true.
Proof.
  intros Hd. destruct f as [|w0 f']; [rewrite Daily_nil in Hd; injection Hd as <-; auto|].
  rewrite Daily_eq in Hd. injection Hd as <-.
  set (f := w0 :: f'). set (l := Time_Location (Date w0)).
  destruct (max_loop f F64.Inf_neg eq_refl) as (Hnf & Hf & Hlof & Hupf).
  destruct (max_loop (day_summary l f <$> day_keys f) F64.Inf_neg eq_refl)
    as (Hnd & Hds & Hlod & Hupd).
  fold (MaximumTemperature f) in *.
  fold (MaximumTemperature (day_summary l f <$> day_keys f)) in *.
  split.
  - destruct Hds as [E|Hin]; [rewrite E; exact Hlof|].
    apply list_elem_of_fmap in Hin as (s & E & Hs).
    apply list_elem_of_fmap in Hs as (k & -> & Hk). simpl in E. rewrite E.
    destruct (max_loop (bucket f k) F64.Inf_neg eq_refl) as (Hnb & [Eb|Hin] & _ & _);
      fold (MaximumTemperature (bucket f k)) in *; [rewrite Eb; exact Hlof|].
    apply list_elem_of_fmap in Hin as (w & Ew & Hw).
    apply bucket_Permutation_fields in Hw as [Hw _].
    rewrite Ew. apply Hupf; [exact Hw|]. rewrite <- Ew. exact Hnb.
  - destruct Hf as [E|Hin]; [rewrite E; exact Hlod|].
    apply list_elem_of_fmap in Hin as (w & Ew & Hw).
    assert (Hnw : F64.isNaN (TemperatureMax w) = false) by (rewrite <- Ew; exact Hnf).
    destruct (max_loop (bucket f (day_key w)) F64.Inf_neg eq_refl) as (Hnb & _ & _ & Hupb).
    fold (MaximumTemperature (bucket f (day_key w))) in *.
    rewrite Ew. eapply le_trans.
    + apply Hupb; [|exact Hnw]. apply bucket_Permutation_fields. auto.
    + apply (Hupd (day_summary l f (day_key w))); [|exact Hnb].
      apply list_elem_of_fmap. exists (day_key w). split; [reflexivity|].
      apply day_keys_elem. exists w. auto.
Qed.

Lemma Daily_Minimum_le (f ds : Forecast) :
  Daily f = Ok ds →
  F64.le (MinimumTemperature ds) (MinimumTemperature f) = true ∧
  F64.le (MinimumTemperature f) (MinimumTemperature ds) = true.
Proof.
  intros Hd. destruct f as [|w0 f']; [rewrite Daily_nil in Hd; injection Hd as <-; auto|].
  rewrite Daily_eq in Hd. injection Hd as <-.
  set (f := w0 :: f'). set (l := Time_Location (Date w0)).
  destruct (min_loop f F64.Inf_pos eq_refl) as (Hnf & Hf & Hhif & Hlowf).
  destruct (min_loop (day_summary l f <$> day_keys f) F64.Inf_pos eq_refl)
    as (Hnd & Hds & Hhid & Hlowd).
  fold (MinimumTemperature f) in *.
  fold (MinimumTemperature (day_summary l f <$> day_keys f)) in *.
  split.
  - destruct Hf as [E|Hin]; [rewrite E; exact Hhid|].
    apply list_elem_of_fmap in Hin as (w & Ew & Hw).
    assert (Hnw : F64.isNaN (TemperatureMin w) = false) by (rewrite <- Ew; exact Hnf).
    destruct (min_loop (bucket f (day_key w)) F64.Inf_pos eq_refl) as (Hnb & _ & _ & Hlowb).
    fold (MinimumTemperature (bucket f (day_key w))) in *.
    rewrite Ew. eapply le_trans.
    + apply (Hlowd (day_summary l f (day_key w))); [|exact Hnb].
      apply list_elem_of_fmap. exists (day_key w). split; [reflexivity|].
      apply day_keys_elem. exists w. auto.
    + apply Hlowb; [|exact Hnw]. apply bucket_Permutation_fields. auto.
  - destruct Hds as [E|Hin]; [rewrite E; exact Hhif|].
    apply list_elem_of_fmap in Hin as (s & E & Hs).
    apply list_elem_of_fmap in Hs as (k & -> & Hk). simpl in E. rewrite E.
    destruct (min_loop (bucket f k) F64.Inf_pos eq_refl) as (Hnb & [Eb|Hin] & _ & _);
      fold (MinimumTemperature (bucket f k)) in *; [rewrite Eb; exact Hhif|].
    apply list_elem_of_fmap in Hin as (w & Ew & Hw).
    apply bucket_Permutation_fields in Hw as [Hw _].
    rewrite Ew. apply Hlowf; [exact Hw|]. rewrite <- Ew. exact Hnb.
Qed.

(** X13: the extrema of the summaries are the extrema of the forecast:
    the greatest daily maximum is the maximum of all observations and the
    least daily minimum is their minimum, under [==]. *)
Theorem Daily_keeps_extrema (f : Forecast) :
  ∃ ds, Daily f = Ok ds ∧
        F64.eq (MaximumTemperature ds) (MaximumTemperature f) = true ∧
        F64.eq (MinimumTemperature ds) (MinimumTemperature f) = true.
Proof.
  assert (Hd : ∃ ds, Daily f = Ok ds).
  { destruct f as [|w0 f']; [exists []; apply Daily_nil|eexists; apply Daily_eq]. }
  destruct Hd as [ds Hd]. exists ds. split; [exact Hd|].
  destruct (Daily_Maximum_le f ds Hd) as [H1 H2].
  destruct (Daily_Minimum_le f ds Hd) as [H3 H4].
  split; apply le_le_eq; assumption.
Qed.

End DailyMore.

(** ** The client and the command *)

Section ClientMore.
Context {tm : TimeAPI} {env : Environment}.

Lemma fold_left_snoc_fmap {A B} (g : A → B) (l : list A) (acc : list B) :
  fold_left (fun out a => out ++ [g a]) l acc = acc ++ (g <$> l).
Proof.
  revert acc. induction l as [|a l IH]; intros acc; simpl.
  - rewrite app_nil_r. reflexivity.
  - rewrite IH, <- app_assoc. reflexivity.
Qed.

(** X14: when the server answers 200 and the body decodes without an
    error, [GetForecast] returns one observation per entry of the decoded
    list, in the order of the list, dated by [time.Unix] of the entry's
    timestamp and with the four readings copied, the humidity included;
    the error is nil. *)
Theorem GetForecast_success (c : Client) (zip : string) (req : Request) (resp : Response)
    (l : list WeatherJSON) :
  http_NewRequest "GET" (OpenWeatherMapURL +:+ "forecast") = inl req →
  (∀ r, httpClient_Do c r = inl resp) →
  StatusCode resp = 200 →
  decode_forecast resp ForecastJSON_zero = ({| list_ := l |}, None) →
  GetForecast c zip =
  ((fun w => {| Date := time_Unix (dt w) 0;
                Humidity := main_humidity (main w);
                Temperature := main_temp (main w);
                TemperatureMin := main_temp_min (main w);
                TemperatureMax := main_temp_max (main w) |}) <$> l,
   None).
Proof.
  intros Hreq Hdo Hst Hdec. unfold GetForecast, makeRequest.
  rewrite Hreq, Hdo. rewrite decide_True by exact Hst.
  unfold json_Decode, ForecastJSON_target. rewrite Hdec. cbn [list_].
  rewrite fold_left_snoc_fmap. reflexivity.
Qed.

(** X15: a non-OK status makes the body of the response the error of
    both calls, with a nil forecast and the zero [Weather]; the decoder
    is not consulted. *)
Theorem status_not_OK_is_error (c : Client) (zip : string) (resp : Response) (b : string) :
  (∀ url, ∃ req, http_NewRequest "GET" url = inl req) →
  (∀ r, httpClient_Do c r = inl resp) →
  StatusCode resp ≠ 200 →
  ioutil_ReadAll resp = inl b →
  GetForecast c zip = ([], Some b) ∧ GetCurrentWeather c zip = (Weather_zero, Some b).
Proof.
  intros Hreq Hdo Hst Hrd. unfold GetForecast, GetCurrentWeather, makeRequest.
  destruct (Hreq (OpenWeatherMapURL +:+ "forecast")) as [r1 ->].
  destruct (Hreq (OpenWeatherMapURL +:+ "weather")) as [r2 ->].
  rewrite !Hdo. rewrite !decide_False by exact Hst. rewrite Hrd. split; reflexivity.
Qed.

(** X16: neither call returns data together with an error: with an
    error, the forecast is nil and the weather is the zero [Weather],
    whatever the decoder had written before it failed. *)
Theorem no_data_with_an_error (c : Client) (zip : string) :
  (snd (GetForecast c zip) = None ∨ fst (GetForecast c zip) = []) ∧
  (snd (GetCurrentWeather c zip) = None ∨ fst (GetCurrentWeather c zip) = Weather_zero).
Proof.
  unfold GetForecast, GetCurrentWeather. split.
  - destruct (makeRequest c ForecastJSON_zero "forecast" _) as [r [e|]];
      [right|left]; reflexivity.
  - destruct (makeRequest c WeatherJSON_zero "weather" _) as [r [e|]];
      [right|left]; reflexivity.
Qed.

(** X17: the query of the request that [makeRequest] hands to the HTTP
    client: [APPID] is the client's key, whatever the caller had put
    there; [units] is the client's units, except for Kelvin, which sends
    none of its own; every other parameter is the caller's. *)
Theorem makeRequest_query {D : Type} `{JSONTarget D} (c : Client) (dest : D)
    (endpoint : string) (q : url_Values) (req : Request) :
  http_NewRequest "GET" (OpenWeatherMapURL +:+ endpoint) = inl req →
  ∃ query : url_Values,
    query !! "APPID" = Some [apiKey c] ∧
    query !! "units" = (if decide (units c = Kelvin) then q !! "units" else Some [units c]) ∧
    (∀ k, k ≠ "APPID" → k ≠ "units" → query !! k = q !! k) ∧
    makeRequest c dest endpoint q =
    match httpClient_Do c {| req_method := req_method req; req_url := req_url req;
                             req_query := query |} with
    | inr err => (dest, Some err)
    | inl resp =>
        if decide (StatusCode resp = 200) then json_Decode env resp dest
        else match ioutil_ReadAll resp with
             | inr err => (dest, Some err)
             | inl b => (dest, Some b)
             end
    end.
Proof.
  intros Hreq. unfold makeRequest. rewrite Hreq.
  exists (if decide (units c = Kelvin) then Values_Set q "APPID" (apiKey c)
          else Values_Set (Values_Set q "APPID" (apiKey c)) "units" (units c)).
  split; [|split; [|split; [|reflexivity]]]; unfold Values_Set, url_Values.
  - destruct (decide (units c = Kelvin)).
    + apply lookup_insert_eq.
    + rewrite lookup_insert_ne by discriminate. apply lookup_insert_eq.
  - destruct (decide (units c = Kelvin)).
    + rewrite lookup_insert_ne by discriminate. reflexivity.
    + apply lookup_insert_eq.
  - intros k H1 H2. destruct (decide (units c = Kelvin)).
    + rewrite lookup_insert_ne by congruence. reflexivity.
    + rewrite !lookup_insert_ne by congruence. reflexivity.
Qed.

End ClientMore.

Section Options.

Lemma NewClient_snoc (opts : list Option) (o : Option) :
  NewClient (opts ++ [o]) = o (NewClient opts).
Proof. unfold NewClient. rewrite fold_left_app. reflexivity. Qed.

(** X18: among options made by [WithAPIKey] and [WithUnits], the last of
    each kind wins; without one the key is empty and the units are Kelvin;
    and the timeout of the HTTP client is five seconds whatever the
    options. *)
Theorem NewClient_last_option_wins (os : list (string + Units)) :
  let c := NewClient ((fun o => match o with
                                | inl k => WithAPIKey k
                                | inr u => WithUnits u
                                end) <$> os) in
  apiKey c = default EmptyString
               (last (omap (fun o => match o with inl k => Some k | inr _ => None end) os)) ∧
  units c = default Kelvin
              (last (omap (fun o => match o with inl _ => None | inr u => Some u end) os)) ∧
  httpTimeout c = 5.
Proof.
  cbv zeta. induction os as [|o os IH] using rev_ind; [repeat split|].
  rewrite fmap_app, !omap_app. simpl. rewrite NewClient_snoc.
  destruct IH as (IH1 & IH2 & IH3). destruct o as [k|u]; simpl.
  - rewrite last_snoc, app_nil_r. auto.
  - rewrite last_snoc, app_nil_r. auto.
Qed.

End Options.

Section CommandProperties.
Context {tm : TimeAPI} {env : Environment}.

(** X19: run without a command-line argument, [main] panics on
    [os.Args[1]] before it has asked the server or printed anything,
    whatever the environment. *)
Theorem main_without_argument (os_Getenv : string → string) (os_Args : list string) :
  (length os_Args ≤ 1)%nat →
  Cli.main os_Getenv os_Args = [Cli.Panics "index out of range"].
Proof.
  intros Hlen. unfold Cli.main.
  rewrite (lookup_ge_None_2 os_Args 1) by lia. reflexivity.
Qed.

(** X20: run with an argument, [main] never panics, and ends in one of
    three ways: the error of the first call and nothing else; the current
    weather, with humidity zero, then the error of the second call; or the
    current weather, the forecast, and the result of [Daily] on that
    forecast.  Both calls are made by a client with the key of the
    environment and imperial units. *)
Theorem main_with_argument (os_Getenv : string → string) (os_Args : list string)
    (zip : string) :
  os_Args !! 1%nat = Some zip →
  let c := {| apiKey := os_Getenv "OPENWEATHERMAP_APIKEY"; units := Imperial;
              httpTimeout := 5 |} in
  let out := Cli.main os_Getenv os_Args in
  (∃ err, snd (GetCurrentWeather c zip) = Some err ∧ out = [Cli.Fatalln err]) ∨
  (∃ w err, GetCurrentWeather c zip = (w, None) ∧ Humidity w = F64.zero ∧
            snd (GetForecast c zip) = Some err ∧
            out = [Cli.Dump_Weather w; Cli.Fatalln err]) ∨
  (∃ w ws ds, GetCurrentWeather c zip = (w, None) ∧ Humidity w = F64.zero ∧
              GetForecast c zip = (ws, None) ∧ Daily ws = Ok ds ∧
              out = [Cli.Dump_Weather w; Cli.Dump_Forecast ws; Cli.Dump_Forecast ds]).
Proof.
  intros Hzip. cbv zeta. unfold Cli.main. rewrite Hzip.
  change (NewClient [WithAPIKey (os_Getenv "OPENWEATHERMAP_APIKEY"); WithUnits Imperial])
    with {| apiKey := os_Getenv "OPENWEATHERMAP_APIKEY"; units := Imperial; httpTimeout := 5 |}.
  set (c := {| apiKey := os_Getenv "OPENWEATHERMAP_APIKEY"; units := Imperial;
               httpTimeout := 5 |}).
  assert (Hhum : ∀ w, GetCurrentWeather c zip = (w, None) → Humidity w = F64.zero).
  { unfold GetCurrentWeather.
    destruct (makeRequest c WeatherJSON_zero "weather" _) as [r [e|]]; intros w E;
      [discriminate E|]. injection E as <-. reflexivity. }
  destruct (GetCurrentWeather c zip) as [w [err|]] eqn:Ew.
  { left. exists err. split; reflexivity. }
  right. specialize (Hhum w eq_refl).
  destruct (GetForecast c zip) as [ws [err|]] eqn:Ef.
  { left. exists w, err. split; [reflexivity|]. split; [exact Hhum|]. split; reflexivity. }
  right. assert (Hd : ∃ ds, Daily ws = Ok ds).
  { destruct ws as [|w0 ws']; [exists []; apply Daily_nil|eexists; apply Daily_eq]. }
  destruct Hd as [ds Hd]. exists w, ws, ds. rewrite Hd.
  split; [reflexivity|]. split; [exact Hhum|]. repeat split.
Qed.

End CommandProperties.

(** ** float64 arithmetic on finite values *)

Section Float64Finite.

Lemma iter_pos_invariant {A} (P : A → Prop) (f : A → A) :
  (∀ x, P x → P (f x)) → ∀ n x, P x → P (SpecFloat.iter_pos f n x).
Proof. intros Hf. induction n as [n IH|n IH|]; intros x Hx; simpl; auto. Qed.

Lemma shr_1_nonneg (mrs : shr_record) : 0 <= shr_m mrs → 0 <= shr_m (shr_1 mrs).
Proof. destruct mrs as [[|[p|p|]|p] r s]; simpl; lia. Qed.

Lemma shr_nonneg (mrs : shr_record) (e n : Z) :
  0 <= shr_m mrs → 0 <= shr_m (fst (shr mrs e n)).
Proof.
  intros H. destruct n as [|p|p]; simpl; try exact H.
  apply (iter_pos_invariant (fun x => 0 <= shr_m x)); [apply shr_1_nonneg|exact H].
Qed.

Lemma shr_record_of_loc_m (m : Z) (l : location) : shr_m (shr_record_of_loc m l) = m.
Proof. destruct l as [|[]]; reflexivity. Qed.

Lemma round_nearest_even_bounds (m : Z) (l : location) :
  m <= round_nearest_even m l <= m + 1.
Proof. destruct l as [|[]]; simpl; try lia. destruct (Z.even m); lia. Qed.

Lemma shr_fexp_nonneg (m e : Z) (l : location) :
  0 <= m → 0 <= shr_m (fst (shr_fexp prec emax m e l)).
Proof.
  intros H. unfold shr_fexp. apply shr_nonneg. rewrite shr_record_of_loc_m. exact H.
Qed.

(** Rounding a mantissa that is not negative never gives NaN. *)
Lemma binary_round_aux_no_NaN (sx : bool) (mx ex : Z) (lx : location) :
  0 <= mx → binary_round_aux prec emax sx mx ex lx ≠ S754_nan.
Proof.
  intros H. unfold binary_round_aux.
  pose proof (shr_fexp_nonneg mx ex lx H) as H1.
  destruct (shr_fexp prec emax mx ex lx) as [mrs' e']. simpl in H1.
  pose proof (round_nearest_even_bounds (shr_m mrs') (loc_of_shr_record mrs')) as Hr.
  pose proof (shr_fexp_nonneg (round_nearest_even (shr_m mrs') (loc_of_shr_record mrs'))
                e' loc_Exact ltac:(lia)) as H2.
  destruct (shr_fexp prec emax _ e' loc_Exact) as [mrs'' e'']. simpl in H2.
  destruct (shr_m mrs'') as [|m|m]; [discriminate| |lia].
  destruct (e'' <=? emax - prec); discriminate.
Qed.

Lemma binary_normalize_no_NaN (m e : Z) (sz : bool) :
  binary_normalize prec emax m e sz ≠ S754_nan.
Proof.
  destruct m as [|p|p]; simpl; [discriminate| |]; unfold binary_round;
    destruct (shl_align _ _ _) as [mz ez]; apply binary_round_aux_no_NaN; lia.
Qed.

(** Adding a value that is neither NaN nor infinite to one that is not
    NaN does not give NaN. *)
Lemma SFadd_no_NaN (x y : spec_float) :
  x ≠ S754_nan → y ≠ S754_nan → (∀ s, y ≠ S754_infinity s) →
  SFadd prec emax x y ≠ S754_nan.
Proof.
  intros Hx Hy Hi.
  destruct x as [sx|sx| |sx mx ex], y as [sy|sy| |sy my ey]; try congruence;
    try (exfalso; apply (Hi sy); reflexivity); simpl; try discriminate.
  - destruct sx, sy; discriminate.
  - apply binary_normalize_no_NaN.
Qed.

Lemma SFdiv_no_NaN (x : spec_float) (sy : bool) (my : positive) (ey : Z) :
  x ≠ S754_nan → SFdiv prec emax x (S754_finite sy my ey) ≠ S754_nan.
Proof.
  intros Hx. destruct x as [sx|sx| |sx mx ex]; try congruence; simpl; try discriminate.
  unfold SFdiv_core_binary.
  set (e' := Z.min _ _). set (m' := match ex - ey - e' with Z0 => _ | Zpos _ => _ | Zneg _ => _ end).
  assert (Hm : 0 <= m').
  { unfold m'. destruct (ex - ey - e'); try lia. apply Z.shiftl_nonneg. lia. }
  change IntDef.Z.div_eucl with Z.div_eucl.
  destruct (Z.div_eucl m' (Zpos my)) as [q r] eqn:E.
  apply binary_round_aux_no_NaN.
  assert (Hq : q = m' / Zpos my) by (unfold Z.div; rewrite E; reflexivity).
  rewrite Hq. apply Z.div_pos; lia.
Qed.

Lemma digits2_pos_bounds (p : positive) :
  2 ^ (Zpos (digits2_pos p) - 1) <= Zpos p < 2 ^ Zpos (digits2_pos p).
Proof.
  induction p as [p IH|p IH|]; simpl; [| |lia];
    rewrite Pos2Z.inj_succ;
    replace (Z.succ (Zpos (digits2_pos p)) - 1) with (Z.succ (Zpos (digits2_pos p) - 1)) by lia;
    rewrite !Z.pow_succ_r by lia; lia.
Qed.

Lemma digits2_pos_le (p : positive) (k : Z) :
  Zpos p < 2 ^ k → Zpos (digits2_pos p) <= k.
Proof.
  intros H. pose proof (digits2_pos_bounds p) as [Hlo _].
  destruct (Z.le_gt_cases (Zpos (digits2_pos p)) k) as [Hle|Hgt]; [exact Hle|exfalso].
  assert (2 ^ k <= 2 ^ (Zpos (digits2_pos p) - 1)) by (apply Z.pow_le_mono_r; lia). lia.
Qed.

Lemma digits2_pos_iter_xO (p d : positive) :
  Zpos (digits2_pos (Pos.iter xO p d)) = Zpos (digits2_pos p) + Zpos d.
Proof.
  induction d as [|d IH] using Pos.peano_ind; [simpl; lia|].
  rewrite Pos.iter_succ. simpl. lia.
Qed.

Lemma shr_1_half (mrs : shr_record) :
  0 <= shr_m mrs → shr_m (shr_1 mrs) = shr_m mrs / 2.
Proof.
  rewrite <- Z.div2_div. destruct mrs as [[|[p|p|]|p] r s]; simpl; intros H;
    try reflexivity; lia.
Qed.

Lemma iter_shr_1 (n : positive) (mrs : shr_record) :
  0 <= shr_m mrs →
  shr_m (SpecFloat.iter_pos shr_1 n mrs) = shr_m mrs / 2 ^ Zpos n.
Proof.
  assert (Hinv : ∀ k x, 0 <= shr_m x → 0 <= shr_m (SpecFloat.iter_pos shr_1 k x))
    by (intros k x; apply (iter_pos_invariant (fun x => 0 <= shr_m x)), shr_1_nonneg).
  revert mrs. induction n as [n IH|n IH|]; intros mrs H; simpl.
  - rewrite IH, IH, shr_1_half by auto using shr_1_nonneg.
    rewrite !Z.div_div by lia. f_equal.
    rewrite <- Z.pow_add_r, <- Z.pow_succ_r by lia. f_equal. lia.
  - rewrite IH, IH by auto. rewrite Z.div_div by lia. f_equal.
    rewrite <- Z.pow_add_r by lia. f_equal. lia.
  - rewrite shr_1_half by exact H. reflexivity.
Qed.

(** Shifting a positive mantissa to its format keeps it positive, as
    long as the exponent is not below the least one. *)
Lemma shr_fexp_pos (m : positive) (e : Z) (l : location) :
  -1074 <= e →
  let r := shr_fexp prec emax (Zpos m) e l in
  0 < shr_m (fst r) <= Zpos m ∧
  e <= snd r <= Z.max e (Zpos (digits2_pos m) + e - 53).
Proof.
  intros He. unfold shr_fexp, fexp, emin, prec, emax.
  change (3 - 1024 - 53) with (-1074). cbn [Zdigits2].
  pose proof (digits2_pos_bounds m) as [Hlo Hhi].
  set (D := Zpos (digits2_pos m)) in *.
  destruct (Z.max (D + e - 53) (-1074) - e) as [|k|k] eqn:Ek; cbn [shr fst snd];
    rewrite ?shr_record_of_loc_m; try lia.
  rewrite iter_shr_1 by (rewrite shr_record_of_loc_m; lia).
  rewrite shr_record_of_loc_m.
  assert (Hk : Zpos k <= D - 1) by lia.
  assert (Hp : 2 ^ Zpos k <= 2 ^ (D - 1)) by (apply Z.pow_le_mono_r; lia).
  assert (0 < 2 ^ Zpos k) by (apply Z.pow_pos_nonneg; lia).
  split; [split|lia].
  - apply Z.div_str_pos. lia.
  - apply Z.div_le_upper_bound; nia.
Qed.

(** Rounding a positive mantissa of moderate size gives a finite number
    that is not zero. *)
Lemma binary_round_aux_finite (sx : bool) (m : positive) (e : Z) (l : location) :
  -1074 <= e <= 400 → Zpos (digits2_pos m) <= 200 →
  ∃ m' e', binary_round_aux prec emax sx (Zpos m) e l = S754_finite sx m' e'.
Proof.
  intros He Hd. unfold binary_round_aux.
  pose proof (shr_fexp_pos m e l ltac:(lia)) as H1. cbv zeta in H1.
  destruct (shr_fexp prec emax (Zpos m) e l) as [mrs' e1]. cbn [fst snd] in H1.
  pose proof (round_nearest_even_bounds (shr_m mrs') (loc_of_shr_record mrs')) as Hr.
  destruct (round_nearest_even (shr_m mrs') (loc_of_shr_record mrs')) as [|m2|m2] eqn:E2;
    try lia.
  pose proof (shr_fexp_pos m2 e1 loc_Exact ltac:(lia)) as H2. cbv zeta in H2.
  assert (Hd2 : Zpos (digits2_pos m2) <= 201).
  { apply digits2_pos_le. pose proof (digits2_pos_bounds m) as [_ Hhi].
    assert (2 ^ Zpos (digits2_pos m) <= 2 ^ 200) by (apply Z.pow_le_mono_r; lia).
    change (2 ^ 201) with (2 * 2 ^ 200). lia. }
  destruct (shr_fexp prec emax (Zpos m2) e1 loc_Exact) as [mrs'' e2]. cbn [fst snd] in H2.
  destruct (shr_m mrs'') as [|m3|m3]; try lia.
  replace (e2 <=? emax - prec) with true; [eexists _, _; reflexivity|].
  symmetry. apply Z.leb_le. unfold emax, prec. lia.
Qed.

(** [float64(n)] of an [int] that is positive is a positive finite number. *)
Lemma of_int_finite (n : Z) :
  1 <= n < 2 ^ 63 →
  ∃ m e, Prim2SF (F64.of_int n) = S754_finite false m e.
Proof.
  intros Hn. unfold F64.of_int.
  assert (Hv : valid_binary (binary_normalize prec emax n 0 false) = true).
  { pose proof (of_uint63_spec (Uint63Axioms.of_Z n)) as Hs.
    rewrite Uint63.of_Z_spec, Z.mod_small in Hs by (change Uint63Axioms.wB with (2 ^ 63); lia).
    rewrite <- Hs. apply Prim2SF_valid. }
  rewrite (Prim2SF_SF2Prim _ Hv).
  destruct n as [|p|p]; try lia. cbn [binary_normalize]. unfold binary_round.
  assert (HD : Zpos (digits2_pos p) <= 63) by (apply digits2_pos_le; lia).
  unfold shl_align, fexp, emin, prec, emax. change (3 - 1024 - 53) with (-1074).
  destruct (Z.max (Zpos (digits2_pos p) + 0 - 53) (-1074) - 0) as [|d|d] eqn:Ed.
  - apply binary_round_aux_finite; lia.
  - apply binary_round_aux_finite; lia.
  - apply binary_round_aux_finite; [lia|]. rewrite digits2_pos_iter_xO. lia.
Qed.

Lemma isFinite_SF (x : float) :
  isFinite x = true → Prim2SF x ≠ S754_nan ∧ ∀ s, Prim2SF x ≠ S754_infinity s.
Proof.
  unfold isFinite. intros H. apply andb_prop in H as [H H3]. apply andb_prop in H as [H1 H2].
  apply negb_true_iff in H1, H2, H3. split; [apply isNaN_false, H1|].
  unfold F64.eq in H2, H3. rewrite FloatAxioms.eqb_spec in H2, H3.
  intros s E. rewrite E in H2, H3. destruct s; [discriminate H3|discriminate H2].
Qed.

Lemma sum_no_NaN {A} (g : A → float) (l : list A) (acc : float) :
  F64.isNaN acc = false → (∀ a, a ∈ l → isFinite (g a) = true) →
  F64.isNaN (fold_left (fun t a => (t + g a)%float) l acc) = false.
Proof.
  revert acc. induction l as [|a l IH]; intros acc Hacc Hfin; simpl; [exact Hacc|].
  apply IH; [|intros a' Ha'; apply Hfin, elem_of_cons; right; exact Ha'].
  destruct (isFinite_SF (g a)) as [Hn Hi]; [apply Hfin, elem_of_cons; left; reflexivity|].
  apply isNaN_false. rewrite FloatAxioms.add_spec.
  apply SFadd_no_NaN; [apply isNaN_false, Hacc|exact Hn|exact Hi].
Qed.

(** The mean of finite values, at most [2^63 - 1] of them and at least
    one, is not NaN. *)
Lemma mean_no_NaN {A} (g : A → float) (l : list A) :
  l ≠ [] → Z.of_nat (length l) < 2 ^ 63 → (∀ a, a ∈ l → isFinite (g a) = true) →
  F64.isNaN (fold_left (fun t a => (t + g a)%float) l F64.zero
             / F64.of_int (Z.of_nat (length l)))%float = false.
Proof.
  intros Hne Hlen Hfin. apply isNaN_false. rewrite FloatAxioms.div_spec.
  destruct (of_int_finite (Z.of_nat (length l))) as (m & e & ->).
  { destruct l; [congruence|]. simpl length in *. lia. }
  apply SFdiv_no_NaN, isNaN_false, sum_no_NaN; [reflexivity|exact Hfin].
Qed.

End Float64Finite.

Section FiniteReadings.
Context {tm : TimeAPI}.

(** X21: on a forecast that is not empty, with fewer than [2^63]
    observations as every Go slice has, the average of finite temperatures
    is not NaN, and neither is the average of finite humidities. *)
Theorem averages_of_finite (f : Forecast) :
  f ≠ [] → Z.of_nat (length f) < 2 ^ 63 →
  ((∀ w, w ∈ f → isFinite (Temperature w) = true) →
   F64.isNaN (AverageTemperature f) = false) ∧
  ((∀ w, w ∈ f → isFinite (Humidity w) = true) →
   F64.isNaN (AverageHumidity f) = false).
Proof.
  intros Hne Hlen. split; intros Hfin; apply mean_no_NaN; assumption.
Qed.

(** X22: when every observation has a finite temperature and a finite
    humidity, no field of any summary of [Daily] is NaN. *)
Theorem Daily_of_finite (f : Forecast) :
  Z.of_nat (length f) < 2 ^ 63 →
  (∀ w, w ∈ f → isFinite (Temperature w) = true ∧ isFinite (Humidity w) = true) →
  ∃ ds, Daily f = Ok ds ∧
        Forall (fun s => F64.isNaN (Temperature s) = false ∧
                         F64.isNaN (Humidity s) = false ∧
                         F64.isNaN (TemperatureMin s) = false ∧
                         F64.isNaN (TemperatureMax s) = false) ds.
Proof.
  intros Hlen Hfin.
  destruct (Daily_summaries f
              (fun _ s => F64.isNaN (Temperature s) = false ∧
                          F64.isNaN (Humidity s) = false ∧
                          F64.isNaN (TemperatureMin s) = false ∧
                          F64.isNaN (TemperatureMax s) = false))
    as (ds & E & HF).
  - intros w0 f' k _ Hk. simpl.
    assert (Hb : ∀ w, w ∈ bucket f k → w ∈ f)
      by (intros w Hw; apply bucket_Permutation_fields in Hw as [Hw _]; exact Hw).
    assert (Hl : Z.of_nat (length (bucket f k)) < 2 ^ 63).
    { pose proof (length_filter (fun w => day_key w = k) f) as Hle.
      unfold bucket. lia. }
    pose proof (day_keys_bucket f k Hk) as Hne.
    split; [apply mean_no_NaN; try assumption; intros w Hw; apply Hfin, Hb, Hw|].
    split; [apply mean_no_NaN; try assumption; intros w Hw; apply Hfin, Hb, Hw|].
    split; [apply MinimumTemperature_no_NaN|apply MaximumTemperature_no_NaN].
  - exists ds. split; [exact E|].
    eapply Forall2_Forall_r; [exact HF|]. apply Forall_forall. intros k _ s Hs. exact Hs.
Qed.

End FiniteReadings.

(** ** The slice that Daily returns *)

Section MemoryMore.
Context {tm : TimeAPI}.
Context (growcap : nat → nat).

Implicit Types (h : gmap positive (list Weather)) (s : slice) (w : Weather).

Lemma slice_append_in_place h s w (a : positive) s' h' :
  s_arr s = Some a → (s_len s < s_cap s)%nat →
  slice_append growcap s w h = Ok (s', h') →
  s' = {| s_arr := Some a; s_off := s_off s; s_len := S (s_len s); s_cap := s_cap s |}.
Proof.
  intros Ea Hlt. unfold slice_append. rewrite Ea.
  apply Nat.ltb_lt in Hlt. rewrite Hlt. intros [= <- _]. reflexivity.
Qed.

Lemma summarize_mem_append (g : grouping_mem) (out : slice) (k : string) h (o1 : slice) h1 :
  summarize_mem growcap g out k h = Ok (o1, h1) →
  ∃ w h2, slice_append growcap out w h2 = Ok (o1, h1).
Proof.
  unfold summarize_mem, mem_bind, mem_lift.
  destruct (ParseInLocation_ptr _ _ _) as [r|]; [|discriminate].
  destruct (AverageHumidity_mem _ _) as [[hum ha]|]; [|discriminate].
  destruct (AverageTemperature_mem _ _) as [[temp hb]|]; [|discriminate].
  destruct (MinimumTemperature_mem _ _) as [[tmin hc]|]; [|discriminate].
  destruct (MaximumTemperature_mem _ _) as [[tmax hd]|]; [|discriminate].
  intros E. eexists _, _. exact E.
Qed.

(** While the capacity lasts, the second loop stays on the array it
    started with and adds one element per key. *)
Lemma range_keys_in_place (g : grouping_mem) (ks : list string) (a : positive) :
  ∀ (out : slice) h (out' : slice) h',
    s_arr out = Some a → (s_len out + length ks ≤ s_cap out)%nat →
    range_keys growcap g ks out h = Ok (out', h') →
    s_arr out' = Some a ∧ s_off out' = s_off out ∧ s_cap out' = s_cap out ∧
    s_len out' = (s_len out + length ks)%nat.
Proof.
  induction ks as [|k ks IH]; intros out h out' h' Ea Hcap; simpl.
  - intros [= <- _]. rewrite Ea. repeat split; lia.
  - unfold mem_bind at 1.
    destruct (summarize_mem growcap g out k h) as [[o1 h1]|] eqn:E1; [|discriminate].
    apply summarize_mem_append in E1 as (w & h2 & E1).
    apply (slice_append_in_place _ _ _ a) in E1; [|exact Ea|simpl in Hcap; lia].
    intros E. apply IH in E; [|rewrite E1; reflexivity|rewrite E1; simpl in *; lia].
    rewrite E1 in E. simpl in *. destruct E as (-> & -> & -> & ->). repeat split; lia.
Qed.

Lemma group_rel_size h0 (p : Forecast) (g : grouping_mem) h :
  group_rel h0 p g h → size (m_days g) = length (day_keys p).
Proof.
  intros (_ & Hk & _ & Hb & _).
  rewrite <- (day_keys_group p), (Permutation_length (sort_Strings_perm _)).
  destruct (group_keys p) as [Hnd Hin].
  rewrite <- (size_list_to_set (C := gset string) _ Hnd), <- size_dom. f_equal.
  apply set_eq. intros k. rewrite elem_of_list_to_set, Hin, elem_of_dom.
  specialize (Hb k). rewrite group_days in Hb.
  pose proof (bucket_nil_iff p k) as Hnil.
  destruct (m_days g !! k) as [s|].
  - destruct Hb as (_ & _ & Hb). destruct (decide (bucket p k = [])); [discriminate Hb|].
    split; [intros _|intros _; eexists; reflexivity].
    destruct (decide (k ∈ day_key <$> p)) as [Hi|Ho]; [exact Hi|]. tauto.
  - destruct (decide (bucket p k = [])) as [E|E]; [|discriminate Hb].
    split; [intros [s Hs]; discriminate Hs|]. intros Hi. exfalso. tauto.
Qed.

(** X23: the slice that [Daily] returns is full: made with the number of
    days as its capacity, it comes back with exactly that length and that
    capacity, whatever the growth policy of [append]. *)
Theorem Daily_mem_result_full h0 (f : slice) :
  slice_valid h0 f →
  ∃ (r : slice) h',
    Daily_mem growcap f h0 = Ok (r, h') ∧
    s_off r = O ∧ s_len r = s_cap r ∧
    s_len r = length (day_keys (slice_contents h0 f)).
Proof.
  intros Hv. set (cs := slice_contents h0 f).
  destruct (group_loop_mem growcap h0 f (s_len f) 0 grouping_mem_init h0 Hv eq_refl)
    as (g & h1 & Hloop & Hrel); [apply group_rel_init|]. fold cs in Hrel.
  pose proof Hrel as (_ & Hk & _).
  pose proof (group_rel_size _ _ _ _ Hrel) as Hsize.
  set (a0 := fresh (dom h1)).
  set (out := {| s_arr := Some a0; s_off := 0; s_len := 0; s_cap := size (m_days g) |}).
  set (h2 := <[a0 := replicate (size (m_days g)) Weather_zero]> h1).
  assert (Hfr : a0 ∉ dom h1) by apply is_fresh.
  destruct (range_keys_mem growcap h0 cs g h1
              (default (Time_Location (Date Weather_zero)) (loc (group cs)))
              (sort_Strings (m_keys g)) Hrel) with (out := out) (h := h2) (acc := @nil Weather)
    as (r & h' & Hkeys & _).
  - intros Hne. rewrite group_loc. destruct cs as [|w0 cs']; [|reflexivity].
    exfalso. apply Hne. rewrite Hk. reflexivity.
  - intros a Ha. unfold h2. rewrite lookup_insert_ne by (intros ->; contradiction). reflexivity.
  - exists a0. auto.
  - unfold slice_valid, out, h2; simpl. eexists. rewrite lookup_insert_eq.
    split; [reflexivity|]. rewrite length_replicate. lia.
  - reflexivity.
  - assert (Hlen : length (sort_Strings (m_keys g)) = size (m_days g)).
    { rewrite Hk, day_keys_group. symmetry. exact Hsize. }
    destruct (range_keys_in_place g (sort_Strings (m_keys g)) a0 out h2 r h' eq_refl)
      as (_ & Hoff & Hcap & Hl); [simpl; lia|exact Hkeys|].
    exists r, h'. split; [|simpl in *; lia].
    unfold Daily_mem, mem_bind. unfold range_slice. rewrite Hloop.
    unfold slice_make. fold a0. fold out. fold h2. exact Hkeys.
Qed.

End MemoryMore.

(** ** The properties on the samples *)

Lemma averages_NaN_witness :
  F64.isNaN (AverageTemperature Samples.one_NaN) = true ∧
  F64.isNaN (AverageHumidity Samples.one_NaN) = true.
Proof.
  destruct (averages_NaN Samples.one_NaN
              (Examples.observation (Examples.at_utc 1704078000) nan 48 75 nan)) as [Ht Hh].
  - apply elem_of_cons. right. apply elem_of_cons. left. reflexivity.
  - split; [apply Ht|apply Hh]; reflexivity.
Defined.

Lemma Daily_keeps_min_le_max_witness :
  ∃ ds, Daily Examples.one_day = Ok ds ∧
        Forall (fun s => F64.le (TemperatureMin s) (TemperatureMax s) = true) ds.
Proof.
  apply Daily_keeps_min_le_max.
  intros w Hw. repeat (apply elem_of_cons in Hw as [->|Hw]); [..|inversion Hw];
    vm_compute; reflexivity.
Defined.

Lemma Daily_interleaving_witness :
  Daily Samples.day1_day2_day1 = Daily Samples.day1_day1_day2.
Proof.
  apply Daily_interleaving; [reflexivity|].
  intros k. unfold bucket, Samples.day1_day2_day1, Samples.day1_day1_day2.
  rewrite !filter_cons, !filter_nil.
  change (day_key (Examples.observation (Examples.at_utc 1704067200) 60 50 70 40))
    with "20240101".
  change (day_key (Examples.observation (Examples.at_utc 1704078000) 70 48 75 60))
    with "20240101".
  change (day_key (Examples.observation (Examples.at_utc 1704153600) 61 51 71 41))
    with "20240102".
  destruct (decide ("20240101" = k)) as [<-|H1]; destruct (decide ("20240102" = _)) as [H2|H2];
    try discriminate H2; reflexivity.
Defined.

Lemma Daily_app_days_witness :
  ∃ df dg, Daily Examples.one_day = Ok df ∧ Daily Samples.two_later_days = Ok dg ∧
           Daily (Examples.one_day ++ Samples.two_later_days) = Ok (df ++ dg).
Proof.
  apply Daily_app_days.
  - intros wf wg [= <-] [= <-]. reflexivity.
  - intros w w' Hw Hw'.
    repeat (apply elem_of_cons in Hw as [->|Hw]); [..|inversion Hw];
      repeat (apply elem_of_cons in Hw' as [->|Hw']); try (inversion Hw'; fail);
      (split; [vm_compute; reflexivity|vm_compute; discriminate]).
Defined.

Lemma GetForecast_success_witness :
  @GetForecast CivilTime.api Servers.forecast_server Examples.client "12345" =
  ((fun w => {| Date := time_Unix (dt w) 0;
                Humidity := main_humidity (main w);
                Temperature := main_temp (main w);
                TemperatureMin := main_temp_min (main w);
                TemperatureMax := main_temp_max (main w) |}) <$> Servers.readings,
   None).
Proof.
  apply (@GetForecast_success CivilTime.api Servers.forecast_server Examples.client "12345"
           {| req_method := "GET"; req_url := OpenWeatherMapURL +:+ "forecast"; req_query := ∅ |}
           {| StatusCode := 200; Body := EmptyString |}).
  - reflexivity.
  - intros r. reflexivity.
  - reflexivity.
  - reflexivity.
Defined.

Lemma status_not_OK_is_error_witness :
  @GetForecast CivilTime.api Servers.refusing_server Examples.client "12345" =
    ([], Some "Invalid API key") ∧
  @GetCurrentWeather CivilTime.api Servers.refusing_server Examples.client "12345" =
    (Weather_zero, Some "Invalid API key").
Proof.
  apply (@status_not_OK_is_error CivilTime.api Servers.refusing_server Examples.client "12345"
           {| StatusCode := 401; Body := "Invalid API key" |}).
  - intros url. eexists. reflexivity.
  - intros r. reflexivity.
  - discriminate.
  - reflexivity.
Defined.

Lemma makeRequest_query_witness :
  ∃ query : url_Values,
    query !! "APPID" = Some ["key"] ∧ query !! "units" = Some ["imperial"] ∧
    query !! "zip" = Some ["12345"].
Proof.
  destruct (@makeRequest_query Examples.humid_server WeatherJSON _
              Examples.client WeatherJSON_zero "weather" (Values_Set ∅ "zip" "12345")
              {| req_method := "GET"; req_url := OpenWeatherMapURL +:+ "weather";
                 req_query := ∅ |} eq_refl)
    as (query & H1 & H2 & H3 & _).
  exists query. split; [exact H1|]. split; [exact H2|].
  rewrite H3 by discriminate. reflexivity.
Defined.

Lemma main_without_argument_witness :
  @Cli.main CivilTime.api Servers.forecast_server (fun _ => "key") ["cli"] =
  [Cli.Panics "index out of range"].
Proof. apply main_without_argument. simpl. lia. Defined.

Lemma main_with_argument_witness :
  let c := {| apiKey := "key"; units := Imperial; httpTimeout := 5 |} in
  let out := @Cli.main CivilTime.api Servers.forecast_server (fun _ => "key") ["cli"; "12345"] in
  (∃ err, snd (@GetCurrentWeather CivilTime.api Servers.forecast_server c "12345") = Some err ∧
          out = [Cli.Fatalln err]) ∨
  (∃ w err, @GetCurrentWeather CivilTime.api Servers.forecast_server c "12345" = (w, None) ∧
            Humidity w = F64.zero ∧
            snd (@GetForecast CivilTime.api Servers.forecast_server c "12345") = Some err ∧
            out = [Cli.Dump_Weather w; Cli.Fatalln err]) ∨
  (∃ w ws ds, @GetCurrentWeather CivilTime.api Servers.forecast_server c "12345" = (w, None) ∧
              Humidity w = F64.zero ∧
              @GetForecast CivilTime.api Servers.forecast_server c "12345" = (ws, None) ∧
              Daily ws = Ok ds ∧
              out = [Cli.Dump_Weather w; Cli.Dump_Forecast ws; Cli.Dump_Forecast ds]).
Proof.
  apply (@main_with_argument CivilTime.api Servers.forecast_server (fun _ => "key")
           ["cli"; "12345"] "12345").
  reflexivity.
Defined.

Lemma extrema_Permutation_witness :
  F64.eq (MaximumTemperature Examples.three_days)
         (MaximumTemperature (reverse Examples.three_days)) = true ∧
  F64.eq (MinimumTemperature Examples.three_days)
         (MinimumTemperature (reverse Examples.three_days)) = true.
Proof. apply extrema_Permutation. symmetry. apply reverse_Permutation. Defined.

Lemma averages_of_finite_witness :
  F64.isNaN (AverageTemperature Examples.one_day) = false ∧
  F64.isNaN (AverageHumidity Examples.one_day) = false.
Proof.
  destruct (averages_of_finite Examples.one_day) as [Ht Hh];
    [discriminate|simpl; lia|].
  split; [apply Ht|apply Hh]; intros w Hw;
    repeat (apply elem_of_cons in Hw as [->|Hw]); try (inversion Hw; fail);
    vm_compute; reflexivity.
Defined.

Lemma Daily_of_finite_witness :
  ∃ ds, Daily Examples.three_days = Ok ds ∧
        Forall (fun s => F64.isNaN (Temperature s) = false ∧
                         F64.isNaN (Humidity s) = false ∧
                         F64.isNaN (TemperatureMin s) = false ∧
                         F64.isNaN (TemperatureMax s) = false) ds.
Proof.
  apply Daily_of_finite; [simpl; lia|].
  intros w Hw. repeat (apply elem_of_cons in Hw as [->|Hw]); [..|inversion Hw];
    split; vm_compute; reflexivity.
Defined.

Lemma Daily_mem_result_full_witness :
  ∃ (r : slice) h',
    Daily_mem Examples.doubling Examples.window Examples.store = Ok (r, h') ∧
    s_off r = O ∧ s_len r = s_cap r ∧
    s_len r = length (day_keys (slice_contents Examples.store Examples.window)).
Proof.
  apply Daily_mem_result_full.
  exists (Examples.three_days ++ Examples.one_day).
  split; [reflexivity|]. simpl. lia.
Defined.
